(** * rl: the Dyna environment model and the collision-free tile coder

    A shallow embedding of
      - [include/agent/StateActionTransition.h]  (class [StateActionTransition<S>]),
      - [coding/DimensionInfo.h]                 (class [DimensionInfo<D>]),
      - [coding/TileCode.h]                      (class [TileCode<D, NUM_TILINGS>]),
      - [coding/TileCodeCorrect.h]               (class [TileCodeCorrect<D, NUM_TILINGS>]),
    followed by the properties proved about them.

    Conventions of the embedding.
      - [rl::FLOAT] is read as exact rational arithmetic: the canonical
        rationals [Qc], whose equality is Leibniz equality and whose
        operations compute.  Rounding, infinities and NaN are outside the model.
        Statements that rounding decides are made on [StateActionTransition64],
        the same member functions with [rl::FLOAT] as binary64.
      - [rl::UINT] and [size_t] are [N], [rl::INT] is [Z]; the header that
        fixes their widths ([declares.h]) is not part of the sources, so
        integers are unbounded and every statement is about values that fit.
      - [spStateXMap<S, FLOAT>] is a finite map [gmap State Qc]; its iteration
        order is the order of [map_to_list], fixed for a given map.  States
        have one equality, used by the map and by [!=] alike.
      - A member function that can throw, abort or mutate takes the object and
        returns an [outcome] together with the object it leaves behind.
      - The draws a function takes from a random device or engine are explicit
        arguments.
      - Every [assert] is taken as compiled in. *)

From Stdlib Require Import ZArith QArith Qcanon Qround Lqa Lia.
From Stdlib Require PrimFloat FloatOps SpecFloat.
From stdpp Require Import base numbers option list strings gmap fin_maps fin_sets.

Local Open Scope Qc_scope.

(** ** Outcomes of a call *)

Inductive exception : Type :=
  | StateActionTransitionException (what : string)
  | out_of_range.

(** [Throw e]: a C++ exception leaves the call; [AssertFailed]: an [assert]
    did not hold; [Undefined]: the call has no defined behaviour (an unchecked
    index outside its container, a floating value converted to an integer type
    that cannot hold it). *)
Inductive outcome (A : Type) : Type :=
  | Ok (a : A)
  | Throw (e : exception)
  | AssertFailed
  | Undefined.
Arguments Ok {A} a.
Arguments Throw {A} e.
Arguments AssertFailed {A}.
Arguments Undefined {A}.

Definition raises {A} (o : outcome A) : Prop := ∃ e, o = Throw e.

#[global] Instance outcome_ret : MRet outcome := λ A a, Ok a.
#[global] Instance outcome_bind : MBind outcome := λ A B f o,
  match o with
  | Ok a => f a
  | Throw e => Throw e
  | AssertFailed => AssertFailed
  | Undefined => Undefined
  end.

(** Left-to-right loop with early exit, for [for] loops whose body can fail. *)
Fixpoint foldM {A B} (f : A → B → outcome A) (a : A) (l : list B) : outcome A :=
  match l with
  | [] => Ok a
  | b :: l' => a' ← f a b; foldM f a' l'
  end.

(** [c.at(i)]: bounds-checked, throws [std::out_of_range]. *)
Definition at_ {A} (c : list A) (i : nat) : outcome A :=
  match c !! i with
  | Some x => Ok x
  | None => Throw out_of_range
  end.

(** [c[i]] on an array or vector: unchecked. *)
Definition subscript {A} (c : list A) (i : nat) : outcome A :=
  match c !! i with
  | Some x => Ok x
  | None => Undefined
  end.

(** The two messages [StateActionTransition] throws with. *)
Definition Empty : exception :=
  StateActionTransitionException "nextStates are empty.".
Definition Missing : exception :=
  StateActionTransitionException "state not yet added.".

(** ** StateActionTransition<S> *)

Module StateActionTransition.
Section Model.
Context {State : Type} `{Countable State}.

Record t : Type := mk {
  _stateActionTransitionFrequency : gmap State Qc;
  _stateActionTransitionReward : gmap State Qc;
  _greedy : Qc;
  _stepSize : Qc
}.

(** A member function: the outcome of the call and the object afterwards. *)
Definition method (A : Type) : Type := t → outcome A * t.

(** [std::map::insert(pair(k, v))]: no effect when [k] is already a key. *)
Definition map_insert (k : State) (v : Qc) (m : gmap State Qc) : gmap State Qc :=
  match m !! k with
  | Some _ => m
  | None => <[k := v]> m
  end.

(** [m[k]] read as a value: the mapped value, [0.0] for a key not yet there. *)
Definition map_get (m : gmap State Qc) (k : State) : Qc := default 0 (m !! k).

(** [StateActionTransition(greedy, stepSize)]: no check, no [throw]. *)
Definition new (greedy stepSize : Qc) : outcome t :=
  Ok (mk ∅ ∅ greedy stepSize).

(** The copy constructor. *)
Definition copy (sat : t) : t :=
  mk (_stateActionTransitionFrequency sat) (_stateActionTransitionReward sat)
     (_greedy sat) (_stepSize sat).

(** The first loop of [update]: every key but [nextState] is lowered.  The
    loop runs over the keys of the map it is started on; writing to the
    value of an existing key does not change the key sequence. *)
Definition lowerOthers (nextState : State) (stepSize : Qc)
    (freq : gmap State Qc) : gmap State Qc :=
  foldl (λ m state,
           if decide (state ≠ nextState)
           then <[state := map_get m state + stepSize * (0 - map_get m state)]> m
           else m)
        freq (map_to_list freq).*1.

Definition update (nextState : State) (reward : Qc) : method unit := λ this,
  let freq0 := map_insert nextState 0 (_stateActionTransitionFrequency this) in
  let rew0 := map_insert nextState reward (_stateActionTransitionReward this) in
  let freq1 := lowerOthers nextState (_stepSize this) freq0 in
  let freq2 :=
    <[nextState := map_get freq1 nextState
                   + _stepSize this * (1 - map_get freq1 nextState)]> freq1 in
  let rew1 :=
    <[nextState := map_get rew0 nextState
                   + 1 * (reward - map_get rew0 nextState)]> rew0 in
  let this' := mk freq2 rew1 (_greedy this) (_stepSize this) in
  if decide (size freq2 = size rew1) then (Ok (), this') else (AssertFailed, this').

Definition _findState (state : State) (this : t) : bool :=
  bool_decide (is_Some (_stateActionTransitionFrequency this !! state)).

Definition getReward (state : State) : method Qc := λ this,
  if negb (_findState state this) then (Throw Missing, this)
  else match _stateActionTransitionReward this !! state with
       | Some r => (Ok r, this)
       | None => (Throw out_of_range, this)
       end.

(** [std::uniform_real_distribution<FLOAT>(a, b)] applied to a generator
    whose canonical draw is [c], [0 ≤ c < 1]. *)
Definition uniform_real_distribution (a b c : Qc) : Qc := c * (b - a) + a.

(** The loop of [getNextState] that adds up the frequency values. *)
Definition sumFreq (l : list (State * Qc)) : Qc := foldl (λ acc kv, acc + kv.2) 0 l.

(** The last loop of [getNextState], ending in [assert(false)]. *)
Fixpoint weightedWalk (l : list (State * Qc)) (randomNumberWeightedSelection : Qc)
    : outcome State :=
  match l with
  | [] => AssertFailed
  | (state, currentFreq) :: l' =>
      if decide (randomNumberWeightedSelection < currentFreq) then Ok state
      else weightedWalk l' (randomNumberWeightedSelection - currentFreq)
  end.

(** [getNextState()] with the draws it takes from [_randomDevice]: [c1] for
    the first distribution, then either the raw device word [rd] or [c2]
    for the weighted distribution. *)
Definition getNextState (c1 : Qc) (rd : N) (c2 : Qc) : method State := λ this,
  let freq := _stateActionTransitionFrequency this in
  if decide (size freq = 0)%nat then (Throw Empty, this)
  else
    let randomNumberRandomSelection := uniform_real_distribution 0 1 c1 in
    if decide (_greedy this < randomNumberRandomSelection) then
      match map_to_list freq !! (N.to_nat rd `mod` size freq)%nat with
      | Some (state, _) => (Ok state, this)
      | None => (Undefined, this)
      end
    else
      let freqValSum := sumFreq (map_to_list freq) in
      let randomNumberWeightedSelection :=
        uniform_real_distribution 0 freqValSum c2 in
      (weightedWalk (map_to_list freq) randomNumberWeightedSelection, this).

Definition getSize (this : t) : nat := size (_stateActionTransitionFrequency this).

Definition setStepSize (stepSize : Qc) (this : t) : t :=
  mk (_stateActionTransitionFrequency this) (_stateActionTransitionReward this)
     (_greedy this) stepSize.

Definition getStepSize (this : t) : Qc := _stepSize this.

Definition setGreedy (greedy : Qc) (this : t) : t :=
  mk (_stateActionTransitionFrequency this) (_stateActionTransitionReward this)
     greedy (_stepSize this).

Definition getGreedy (this : t) : Qc := _greedy this.

(** *** Histories of calls *)

(** One call on an object, with its arguments and the draws it consumes. *)
Inductive call : Type :=
  | CallUpdate (nextState : State) (reward : Qc)
  | CallGetReward (state : State)
  | CallGetNextState (c1 : Qc) (rd : N) (c2 : Qc)
  | CallGetSize
  | CallSetStepSize (stepSize : Qc)
  | CallGetStepSize
  | CallSetGreedy (greedy : Qc)
  | CallGetGreedy
  | CallCopy.

(** The object a call leaves behind ([CallCopy] continues with the copy). *)
Definition after (this : t) (c : call) : t :=
  match c with
  | CallUpdate nextState reward => (update nextState reward this).2
  | CallGetReward state => (getReward state this).2
  | CallGetNextState c1 rd c2 => (getNextState c1 rd c2 this).2
  | CallGetSize => this
  | CallSetStepSize stepSize => setStepSize stepSize this
  | CallGetStepSize => this
  | CallSetGreedy greedy => setGreedy greedy this
  | CallGetGreedy => this
  | CallCopy => copy this
  end.

Definition run (this : t) (calls : list call) : t := foldl after this calls.

(** The object built by the constructor. *)
Definition fresh (greedy stepSize : Qc) : t := mk ∅ ∅ greedy stepSize.

(** [l] lists the arguments of successive [update] calls on a new object. *)
Definition trained (greedy stepSize : Qc) (l : list (State * Qc)) : t :=
  run (fresh greedy stepSize) ((λ sr, CallUpdate sr.1 sr.2) <$> l).

(** *** Notions used by the statements *)

(** What the two assignments of [update] do to a stored frequency. *)
Definition lowered (stepSize f : Qc) : Qc := f + stepSize * (0 - f).
Definition raised (stepSize f : Qc) : Qc := f + stepSize * (1 - f).

Definition same_keys (this : t) : Prop :=
  dom (_stateActionTransitionFrequency this) = dom (_stateActionTransitionReward this).

Definition freq_nonneg (this : t) : Prop :=
  ∀ k f, _stateActionTransitionFrequency this !! k = Some f → 0 ≤ f.

End Model.
Arguments t State {_ _}.
End StateActionTransition.

(** ** StateActionTransition<S> with binary64 frequencies and rewards

    The member functions of [StateActionTransition<S>] once more, every
    [rl::FLOAT] operation rounded as binary64 does. *)

Module StateActionTransition64.
Import PrimFloat.

(** Modelled from the spec: the type [rl::FLOAT].  The header that declares it
    ([declares.h]) is not among the sources;
    [std::uniform_real_distribution<rl::FLOAT>] needs a floating type and the
    specification asks for double precision throughout. *)
Definition FLOAT : Type := float.

Section Model.
Context {State : Type} `{Countable State}.

Record t : Type := mk {
  _stateActionTransitionFrequency : gmap State FLOAT;
  _stateActionTransitionReward : gmap State FLOAT;
  _greedy : FLOAT;
  _stepSize : FLOAT
}.

Definition method (A : Type) : Type := t → outcome A * t.

(** [std::map::insert(pair(k, v))]: no effect when [k] is already a key. *)
Definition map_insert (k : State) (v : FLOAT) (m : gmap State FLOAT)
    : gmap State FLOAT :=
  match m !! k with
  | Some _ => m
  | None => <[k := v]> m
  end.

(** [m[k]] read as a value: the mapped value, [0.0] for a key not yet there. *)
Definition map_get (m : gmap State FLOAT) (k : State) : FLOAT :=
  default (0%float : FLOAT) (m !! k).

(** The object built by [StateActionTransition(greedy, stepSize)]. *)
Definition fresh (greedy stepSize : FLOAT) : t := mk ∅ ∅ greedy stepSize.

(** The first loop of [update]. *)
Definition lowerOthers (nextState : State) (stepSize : FLOAT)
    (freq : gmap State FLOAT) : gmap State FLOAT :=
  foldl (λ m state,
           if decide (state ≠ nextState)
           then <[state := (map_get m state
                            + stepSize * (0 - map_get m state))%float]> m
           else m)
        freq (map_to_list freq).*1.

Definition update (nextState : State) (reward : FLOAT) : method unit := λ this,
  let freq0 := map_insert nextState 0%float (_stateActionTransitionFrequency this) in
  let rew0 := map_insert nextState reward (_stateActionTransitionReward this) in
  let freq1 := lowerOthers nextState (_stepSize this) freq0 in
  let freq2 :=
    <[nextState := (map_get freq1 nextState
                    + _stepSize this * (1 - map_get freq1 nextState))%float]> freq1 in
  let rew1 :=
    <[nextState := (map_get rew0 nextState
                    + 1 * (reward - map_get rew0 nextState))%float]> rew0 in
  let this' := mk freq2 rew1 (_greedy this) (_stepSize this) in
  if decide (size freq2 = size rew1) then (Ok (), this') else (AssertFailed, this').

(** [std::uniform_real_distribution<FLOAT>(a, b)] applied to a generator
    whose canonical draw is [c], as the library computes it. *)
Definition uniform_real_distribution (a b c : FLOAT) : FLOAT :=
  (c * (b - a) + a)%float.

(** The loop of [getNextState] that adds up the frequency values. *)
Definition sumFreq (l : list (State * FLOAT)) : FLOAT :=
  foldl (λ acc kv, (acc + kv.2)%float) 0%float l.

(** The last loop of [getNextState], ending in [assert(false)]. *)
Fixpoint weightedWalk (l : list (State * FLOAT)) (randomNumberWeightedSelection : FLOAT)
    : outcome State :=
  match l with
  | [] => AssertFailed
  | (state, currentFreq) :: l' =>
      if (randomNumberWeightedSelection <? currentFreq)%float then Ok state
      else weightedWalk l' (randomNumberWeightedSelection - currentFreq)%float
  end.

Definition getNextState (c1 : FLOAT) (rd : N) (c2 : FLOAT) : method State := λ this,
  let freq := _stateActionTransitionFrequency this in
  if decide (size freq = 0)%nat then (Throw Empty, this)
  else
    let randomNumberRandomSelection := uniform_real_distribution 0%float 1%float c1 in
    if (_greedy this <? randomNumberRandomSelection)%float then
      match map_to_list freq !! (N.to_nat rd `mod` size freq)%nat with
      | Some (state, _) => (Ok state, this)
      | None => (Undefined, this)
      end
    else
      let freqValSum := sumFreq (map_to_list freq) in
      let randomNumberWeightedSelection :=
        uniform_real_distribution 0%float freqValSum c2 in
      (weightedWalk (map_to_list freq) randomNumberWeightedSelection, this).

(** *** Histories of calls *)


(** [l] lists the arguments of successive [update] calls on a new object. *)
Definition trained (greedy stepSize : FLOAT) (l : list (State * FLOAT)) : t :=
  foldl (λ this sr, (update sr.1 sr.2 this).2) (fresh greedy stepSize) l.

(** *** Notions used by the statements *)

(** What the two assignments of [update] do to a stored frequency. *)
Definition lowered (stepSize f : FLOAT) : FLOAT := (f + stepSize * (0 - f))%float.
Definition raised (stepSize f : FLOAT) : FLOAT := (f + stepSize * (1 - f))%float.

End Model.
Arguments t State {_ _}.


End StateActionTransition64.

(** ** DimensionInfo<rl::FLOAT> *)

Module DimensionInfo.

Record t : Type := mk {
  _range : Qc * Qc;
  _gridCountIdeal : N;
  _generalizationScale : Qc
}.

(** [DimensionInfo(lowerRange, higherRange, gridCount, generalizationScale)]:
    the arguments are stored as given; no check, no [throw]. *)
Definition new (lowerRange higherRange : Qc) (gridCount : N)
    (generalizationScale : Qc) : outcome t :=
  Ok (mk (lowerRange, higherRange) gridCount generalizationScale).

(** The three-argument constructor. *)
Definition new3 (lowerRange higherRange : Qc) (gridCount : N) : outcome t :=
  Ok (mk (lowerRange, higherRange) gridCount 1).

(** [std::abs] on [rl::FLOAT]. *)
Definition abs (x : Qc) : Qc := if decide (x < 0) then - x else x.

Definition GetRangeDifference (this : t) : Qc :=
  abs ((_range this).1 - (_range this).2).

Definition GetOffsets (this : t) : Qc :=
  GetRangeDifference this / Qc_of_Z (Z.of_N (_gridCountIdeal this)).

Definition GetGridCountReal (this : t) : N := (_gridCountIdeal this + 1)%N.

Definition GetGridCountIdeal (this : t) : N := _gridCountIdeal this.

Definition getUpperBound (this : t) : Qc := (_range this).2.

Definition getLowerBound (this : t) : Qc := (_range this).1.

Definition getGeneralizationScale (this : t) : Qc := _generalizationScale this.

Definition SetGridCountIdeal (gridCountIdeal : N) (this : t) : t :=
  mk (_range this) gridCountIdeal (_generalizationScale this).

Definition setUpperBound (upperBound : Qc) (this : t) : t :=
  mk ((_range this).1, upperBound) (_gridCountIdeal this) (_generalizationScale this).

Definition setLowerBound (lowerBound : Qc) (this : t) : t :=
  mk (lowerBound, (_range this).2) (_gridCountIdeal this) (_generalizationScale this).

Definition setGeneralizationScale (generalization : Qc) (this : t) : t :=
  mk (_range this) (_gridCountIdeal this) generalization.

End DimensionInfo.

(** ** TileCode<D, NUM_TILINGS> and TileCodeCorrect<D, NUM_TILINGS> *)

Module TileCode.
Section Model.
(** The template parameter [NUM_TILINGS].  The other one, [D], is the length
    of the [std::array]s: [getDimension] below. *)
Variable NUM_TILINGS : nat.

Record t : Type := mk {
  _w : list Qc;
  _sizeCache : N;
  _randomOffsets : list (list Qc);
  _dimensionalInfos : list DimensionInfo.t
}.

Definition getDimension (this : t) : nat := length (_dimensionalInfos this).

Definition _calculateSize (dims : list DimensionInfo.t) : N :=
  (foldl (λ size di, size * DimensionInfo.GetGridCountReal di) 1 dims
   * N.of_nat NUM_TILINGS)%N.

(** [TileCode(dimensionalInfos, sizeHint)].  [draw i j] is the value
    [distribution(_pseudoRNG)] returns in round [(i, j)] of the two loops,
    a number in [[0, 1)]. *)
Definition new2 (dimensionalInfos : list DimensionInfo.t) (sizeHint : N)
    (draw : nat → nat → Qc) : t :=
  mk (replicate (N.to_nat sizeHint) 0)
     sizeHint
     (map (λ i, imap (λ j di, draw i j * DimensionInfo.GetOffsets di
                              * DimensionInfo.getGeneralizationScale di)
                     dimensionalInfos)
          (seq 0 NUM_TILINGS))
     dimensionalInfos.

(** [TileCode(dimensionalInfos)]. *)
Definition new (dimensionalInfos : list DimensionInfo.t)
    (draw : nat → nat → Qc) : t :=
  new2 dimensionalInfos (_calculateSize dimensionalInfos) draw.

Definition getNumTilings (this : t) : nat := NUM_TILINGS.

Definition getSize (this : t) : N := _sizeCache this.

(** The conversion of the [rl::FLOAT] quotient [num / den] to [size_t] at the
    [return] of [paramToGridValue]: the fraction is dropped.  There is no
    defined result when the divisor is zero or when the truncated value is
    negative. *)
Definition quotient_to_size_t (num den : Qc) : outcome N :=
  if decide (den = 0) then Undefined
  else if decide (num / den ≤ -1) then Undefined
  else Ok (Z.to_N (Qfloor (num / den)%Qc)).

Definition paramToGridValue (this : t) (param : Qc)
    (tilingIndex dimensionIndex : nat) : outcome N :=
  row ← at_ (_randomOffsets this) tilingIndex;
  randomOffset ← at_ row dimensionIndex;
  di ← at_ (_dimensionalInfos this) dimensionIndex;
  let dimGeneraliztionScale := DimensionInfo.getGeneralizationScale di in
  let dimLowerBound := DimensionInfo.getLowerBound di in
  let dimGridCountIdeal := DimensionInfo.GetGridCountIdeal di in
  let dimRangeMagnitude := DimensionInfo.GetRangeDifference di in
  quotient_to_size_t
    ((param + randomOffset * dimGeneraliztionScale - dimLowerBound)
     * Qc_of_Z (Z.of_N dimGridCountIdeal))
    dimRangeMagnitude.

(** What one round of the inner loop of [getFeatureVector] does to
    [(hashedIndex, mult)], given the grid value it obtained. *)
Definition accumulate (acc : Z * Z) (gridValue : N) (di : DimensionInfo.t)
    : Z * Z :=
  (acc.1 + Z.of_N gridValue * acc.2,
   acc.2 * Z.of_N (DimensionInfo.GetGridCountReal di))%Z.

(** Round [j] of the inner loop for tiling [i]. *)
Definition innerRound (this : t) (parameters : list Qc) (i : nat)
    (acc : Z * Z) (j : nat) : outcome (Z * Z) :=
  param ← at_ parameters j;
  gridValue ← paramToGridValue this param i j;
  di ← subscript (_dimensionalInfos this) j;
  Ok (accumulate acc gridValue di).

(** The value of [hashedIndex] for tiling [i], before the [assert]. *)
Definition hashedIndex (this : t) (parameters : list Qc) (i : nat) : outcome Z :=
  acc ← foldM (innerRound this parameters i) (0%Z, 1%Z) (seq 0 (getDimension this));
  Ok (acc.1 + acc.2 * Z.of_nat i)%Z.

(** [TileCodeCorrect::getFeatureVector]. *)
Definition getFeatureVector (this : t) (parameters : list Qc) : outcome (list Z) :=
  mapM (λ i, idx ← hashedIndex this parameters i;
             if decide (idx ≤ Z.of_N (_sizeCache this))%Z then Ok idx
             else AssertFailed)
       (seq 0 NUM_TILINGS).

(** The index the two loops build from given grid coordinates
    [(g_0, …, g_{D-1})] and tiling number [i]:
    [x1 + x2*x1.gridSize + x3*x1.gridSize*x2.gridSize + ...], then
    [+ mult * i]. *)
Definition assemble (dims : list DimensionInfo.t) (gs : list N) (i : nat) : Z :=
  let acc := foldl (λ acc gd, accumulate acc gd.1 gd.2) (0%Z, 1%Z) (zip gs dims) in
  (acc.1 + acc.2 * Z.of_nat i)%Z.

(** *** The weights *)

(** [at(i) const]: a bounds-checked read of [_w]. *)
Definition at_const (this : t) (i : nat) : outcome Qc := at_ (_w this) i.

(** [at(i) = v]: a store through the reference [at(i)] returns, bounds-checked. *)
Definition at_store (this : t) (i : nat) (v : Qc) : outcome t :=
  match _w this !! i with
  | Some _ =>
      Ok (mk (<[i := v]> (_w this)) (_sizeCache this) (_randomOffsets this)
             (_dimensionalInfos this))
  | None => Throw out_of_range
  end.

(** [_w[f]] for a feature index [f]: unchecked. *)
Definition weightOf (this : t) (f : Z) : outcome Qc :=
  if decide (f < 0)%Z then Undefined else subscript (_w this) (Z.to_nat f).

Definition getValueFromFeatureVector (this : t) (fv : list Z) : outcome Qc :=
  foldM (λ sum f, w ← weightOf this f; Ok (sum + w)) 0 fv.

Definition getValueFromParameters (this : t) (parameters : list Qc) : outcome Qc :=
  fv ← getFeatureVector this parameters;
  getValueFromFeatureVector this fv.

Definition _calculateSizeCache (this : t) : N :=
  _calculateSize (_dimensionalInfos this).

(** *** Notions used by the statements *)

(** The sum of the weights a feature vector selects, [0] standing in for an
    index without a weight. *)
Definition weightSum (this : t) (fv : list Z) : Qc :=
  foldr (λ f acc, default 0 (_w this !! Z.to_nat f) + acc) 0 fv.

(** The value of the digits [gs] in the mixed radix given by [dims], least
    significant digit first. *)
Fixpoint positional (dims : list DimensionInfo.t) (gs : list N) : Z :=
  match gs, dims with
  | g :: gs', di :: dims' =>
      Z.of_N g + Z.of_N (DimensionInfo.GetGridCountReal di) * positional dims' gs'
  | _, _ => 0
  end%Z.

(** The number of grid points of one tiling. *)
Fixpoint volume (dims : list DimensionInfo.t) : Z :=
  match dims with
  | [] => 1
  | di :: dims' => Z.of_N (DimensionInfo.GetGridCountReal di) * volume dims'
  end%Z.

(** Grid coordinates that fit their dimension. *)
Definition inGrid (gs : list N) (dims : list DimensionInfo.t) : Prop :=
  Forall2 (λ g di, (g < DimensionInfo.GetGridCountReal di)%N) gs dims.

(** The invariant of a dimension: a proper range and at least one grid cell. *)
Definition wellFormed (di : DimensionInfo.t) : Prop :=
  DimensionInfo.getLowerBound di < DimensionInfo.getUpperBound di
  ∧ DimensionInfo.GetGridCountIdeal di ≠ 0%N.

(** A coordinate inside the range of its dimension. *)
Definition inside (x : Qc) (di : DimensionInfo.t) : Prop :=
  DimensionInfo.getLowerBound di ≤ x ∧ x ≤ DimensionInfo.getUpperBound di.

(** A draw [u] whose shift, [u * generalizationScale * generalizationScale]
    grid cells, stays below one cell. *)
Definition shiftBelowOne (u : Qc) (di : DimensionInfo.t) : Prop :=
  0 ≤ u
  ∧ u * DimensionInfo.getGeneralizationScale di
      * DimensionInfo.getGeneralizationScale di < 1.

End Model.
End TileCode.

(** * Properties *)

(** Order goals over [Qc] are decided over [Q], where [nra] works. *)
Ltac qc_nra :=
  unfold Qcle, Qclt, Qcminus, Qcplus, Qcmult, Qcopp, Q2Qc in *;
  cbn [this] in *;
  rewrite ?Qred_correct in *;
  nra.

(** ** StateActionTransition<S> *)

Module StateActionTransitionFacts.
Import StateActionTransition.

Abbreviation freqOf := _stateActionTransitionFrequency.
Abbreviation rewOf := _stateActionTransitionReward.

Section Proofs.
Context {State : Type} `{Countable State}.
Implicit Types (this : t State) (freq rew : gmap State Qc) (k s nextState : State).
Implicit Types (l : list (State * Qc)).

(** *** The maps an [update] leaves behind *)

Lemma map_get_insert freq k k' v :
  map_get (<[k := v]> freq) k' = if decide (k = k') then v else map_get freq k'.
Proof. unfold map_get. rewrite lookup_insert. by destruct (decide (k = k')). Qed.

Lemma lookup_map_insert freq k k' v :
  map_insert k v freq !! k' =
    if decide (k = k') then Some (default v (freq !! k)) else freq !! k'.
Proof.
  unfold map_insert. destruct (freq !! k) as [x|] eqn:E.
  - destruct (decide (k = k')) as [<-|]; by rewrite ?E.
  - rewrite lookup_insert. by destruct (decide (k = k')).
Qed.

Lemma lowerOthers_fold nextState β (l : list State) : ∀ freq k,
  NoDup l →
  foldl (λ m state,
           if decide (state ≠ nextState)
           then <[state := map_get m state + β * (0 - map_get m state)]> m
           else m) freq l !! k
  = if decide (k ∈ l ∧ k ≠ nextState) then Some (lowered β (map_get freq k))
    else freq !! k.
Proof.
  induction l as [|a l IH]; intros freq k Hnd; cbn [foldl].
  - rewrite decide_False; [done|]. intros [Hin _]. by apply elem_of_nil in Hin.
  - apply NoDup_cons in Hnd as [Ha Hnd]. rewrite IH by done.
    destruct (decide (k ∈ l ∧ k ≠ nextState)) as [[Hin Hne]|Hn];
      destruct (decide (k ∈ a :: l ∧ k ≠ nextState)) as [[Hin' Hne']|Hn'].
    + assert (a ≠ k) by (intros ->; done).
      destruct (decide (a ≠ nextState)); [|done].
      by rewrite map_get_insert, decide_False.
    + destruct Hn'. split; [by right|done].
    + apply elem_of_cons in Hin' as [->|Hin']; [|by destruct Hn].
      by rewrite decide_True, lookup_insert_eq by done.
    + destruct (decide (a ≠ nextState)) as [Hane|Hane]; [|done].
      rewrite lookup_insert_ne; [done|]. intros ->. apply Hn'.
      split; [by left|done].
Qed.

Lemma lookup_lowerOthers nextState β freq k :
  lowerOthers nextState β freq !! k
  = if decide (k = nextState) then freq !! k else lowered β <$> freq !! k.
Proof.
  unfold lowerOthers. rewrite lowerOthers_fold by apply NoDup_fst_map_to_list.
  destruct (decide (k = nextState)) as [->|Hne].
  - rewrite decide_False; [done|]. by intros [_ ?].
  - destruct (freq !! k) as [f|] eqn:E.
    + rewrite decide_True; [by unfold map_get; rewrite E|].
      split; [|done]. apply list_elem_of_fmap. exists (k, f).
      split; [done|]. by apply elem_of_map_to_list.
    + rewrite decide_False; [done|]. intros [Hin _].
      apply list_elem_of_fmap in Hin as ([k' f] & -> & Hin).
      apply elem_of_map_to_list in Hin. simpl in *. congruence.
Qed.

Lemma map_get_lowerOthers_self nextState β freq :
  map_get (lowerOthers nextState β (map_insert nextState 0 freq)) nextState
  = map_get freq nextState.
Proof.
  unfold map_get at 1.
  rewrite lookup_lowerOthers, decide_True, lookup_map_insert, decide_True by done.
  unfold map_get. by destruct (freq !! nextState).
Qed.

(** The two maps an [update] leaves behind, in closed form. *)
Lemma update_freq nextState reward this :
  freqOf (update nextState reward this).2
  = <[nextState := raised (_stepSize this) (map_get (freqOf this) nextState)]>
      (lowered (_stepSize this) <$> freqOf this).
Proof.
  unfold update. cbv zeta. rewrite map_get_lowerOthers_self.
  case_decide; cbn [snd freqOf].
  all: apply map_eq; intros k; rewrite !lookup_insert.
  all: destruct (decide (nextState = k)) as [<-|Hne]; [done|].
  all: by rewrite lookup_lowerOthers, decide_False, lookup_map_insert, decide_False,
         lookup_fmap by done.
Qed.

Lemma update_rew nextState reward this :
  rewOf (update nextState reward this).2 = <[nextState := reward]> (rewOf this).
Proof.
  unfold update. cbv zeta. case_decide; simpl.
  all: apply map_eq; intros k; rewrite !lookup_insert.
  all: destruct (decide (nextState = k)) as [<-|Hne];
         [f_equal; ring | by rewrite lookup_map_insert, decide_False].
Qed.

Lemma update_scalars nextState reward this :
  _greedy (update nextState reward this).2 = _greedy this
  ∧ _stepSize (update nextState reward this).2 = _stepSize this.
Proof. unfold update. cbv zeta. by case_decide. Qed.

Lemma update_outcome nextState reward this :
  (update nextState reward this).1
  = if decide (size (freqOf (update nextState reward this).2)
               = size (rewOf (update nextState reward this).2))
    then Ok () else AssertFailed.
Proof. unfold update. cbv zeta. by repeat (case_decide; cbn [fst snd freqOf rewOf] in * ). Qed.

Lemma update_dom_freq nextState reward this :
  dom (freqOf (update nextState reward this).2) = {[nextState]} ∪ dom (freqOf this).
Proof. by rewrite update_freq, dom_insert_L, dom_fmap_L. Qed.

Lemma update_dom_rew nextState reward this :
  dom (rewOf (update nextState reward this).2) = {[nextState]} ∪ dom (rewOf this).
Proof. by rewrite update_rew, dom_insert_L. Qed.

Lemma getReward_frame state this : (getReward state this).2 = this.
Proof. unfold getReward. by repeat case_match. Qed.

Lemma getNextState_frame c1 rd c2 this : (getNextState c1 rd c2 this).2 = this.
Proof. unfold getNextState. cbv zeta. by repeat case_match. Qed.

Lemma run_snoc this calls c : run this (calls ++ [c]) = after (run this calls) c.
Proof. unfold run. by rewrite foldl_app. Qed.

(** *** Key sets *)

Lemma after_same_keys this c : same_keys this → same_keys (after this c).
Proof.
  unfold same_keys. intros Hk. destruct c; cbn [after].
  - by rewrite update_dom_freq, update_dom_rew, Hk.
  - by rewrite getReward_frame.
  - by rewrite getNextState_frame.
  - done.
  - done.
  - done.
  - done.
  - done.
  - done.
Qed.

Lemma run_same_keys this calls : same_keys this → same_keys (run this calls).
Proof.
  revert this. induction calls as [|c calls IH]; intros this Hk; [done|].
  apply IH. by apply after_same_keys.
Qed.

Lemma update_assert_holds nextState reward this :
  same_keys this → (update nextState reward this).1 = Ok ().
Proof.
  intros Hk. rewrite update_outcome, decide_True; [done|].
  rewrite <-!size_dom, update_dom_freq, update_dom_rew. by rewrite Hk.
Qed.

(** C6.  Whatever calls were made on an object since its construction, the
    frequency map and the reward map have the same key set; the next [update]
    therefore passes its closing [assert] and leaves the two key sets equal
    again. *)
Theorem key_sets_equal (greedy β : Qc) (calls : list (call (State := State))) :
  let this := run (fresh greedy β) calls in
  dom (freqOf this) = dom (rewOf this)
  ∧ ∀ nextState reward,
      (update nextState reward this).1 = Ok ()
      ∧ dom (freqOf (update nextState reward this).2)
        = dom (rewOf (update nextState reward this).2).
Proof.
  intros this.
  assert (same_keys this) as Hk by (by apply run_same_keys).
  split; [done|]. intros nextState reward. split.
  - by apply update_assert_holds.
  - by apply (after_same_keys this (CallUpdate nextState reward)).
Qed.

(** C7.  On an object reached from its construction by any calls,
    [getReward(state)] throws the "state not yet added." exception exactly
    when [state] is not a key; when [state] is a key it returns the reward
    stored for it; in every case the object is left as it was. *)
Theorem getReward_missing_iff (greedy β : Qc) (calls : list (call (State := State)))
    (state : State) :
  let this := run (fresh greedy β) calls in
  ((getReward state this).1 = Throw Missing ↔ state ∉ dom (freqOf this))
  ∧ (state ∈ dom (freqOf this) →
     ∃ r, rewOf this !! state = Some r ∧ getReward state this = (Ok r, this))
  ∧ (getReward state this).2 = this.
Proof.
  intros this.
  assert (same_keys this) as Hk by (by apply run_same_keys).
  unfold same_keys in Hk. split; [|split].
  - unfold getReward, _findState. rewrite not_elem_of_dom.
    destruct (freqOf this !! state) as [f|] eqn:E.
    + rewrite bool_decide_true by eauto. cbn [negb].
      split; [|done]. by case_match.
    + rewrite bool_decide_false by (by intros [??]). done.
  - intros Hin. assert (is_Some (rewOf this !! state)) as [r Hr]
      by (by apply elem_of_dom; rewrite <-Hk).
    exists r. split; [done|].
    unfold getReward, _findState.
    rewrite bool_decide_true by (by apply elem_of_dom). cbn [negb]. by rewrite Hr.
  - apply getReward_frame.
Qed.

(** C10.  [update] changes neither scalar: [getGreedy()] and [getStepSize()]
    answer after the call what they answered before it, for every object and
    all arguments. *)
Theorem update_preserves_scalars (this : t State) (nextState : State) (reward : Qc) :
  getGreedy (update nextState reward this).2 = getGreedy this
  ∧ getStepSize (update nextState reward this).2 = getStepSize this.
Proof. apply update_scalars. Qed.

(** *** Signs *)

Lemma map_get_nonneg this k : freq_nonneg this → 0 ≤ map_get (freqOf this) k.
Proof.
  intros Hn. unfold map_get. destruct (freqOf this !! k) as [f|] eqn:E; cbn.
  - by apply (Hn k).
  - done.
Qed.

Lemma lowered_nonneg (β f : Qc) : 0 < β → β ≤ 1 → 0 ≤ f → 0 ≤ lowered β f.
Proof. unfold lowered. intros. qc_nra. Qed.

Lemma raised_pos (β f : Qc) : 0 < β → β ≤ 1 → 0 ≤ f → 0 < raised β f.
Proof. unfold raised. intros. qc_nra. Qed.

Lemma update_freq_nonneg nextState reward this :
  0 < _stepSize this → _stepSize this ≤ 1 →
  freq_nonneg this → freq_nonneg (update nextState reward this).2.
Proof.
  intros Hb0 Hb1 Hn k f. rewrite update_freq, lookup_insert.
  case_decide as Hk.
  - intros [= <-]. apply Qclt_le_weak, raised_pos; [done..|].
    by apply map_get_nonneg.
  - rewrite lookup_fmap. destruct (freqOf this !! k) as [f0|] eqn:E; [|done].
    intros [= <-]. apply lowered_nonneg; [done..|]. by apply (Hn k).
Qed.

Lemma trained_snoc greedy β l nextState reward :
  trained greedy β (l ++ [(nextState, reward)])
  = (update nextState reward (trained greedy β l)).2.
Proof. unfold trained, run. by rewrite fmap_app, foldl_app. Qed.

Lemma trained_stepSize greedy β l : _stepSize (trained greedy β l) = β.
Proof.
  induction l as [|[s r] l IH] using rev_ind; [done|].
  rewrite trained_snoc. by destruct (update_scalars s r (trained greedy β l)) as [_ ->].
Qed.

Lemma trained_nonneg greedy β l :
  0 < β → β ≤ 1 → freq_nonneg (trained greedy β l).
Proof.
  intros Hb0 Hb1. induction l as [|[s r] l IH] using rev_ind.
  - intros k f. unfold trained. cbn. by rewrite lookup_empty.
  - rewrite trained_snoc. apply update_freq_nonneg; by rewrite ?trained_stepSize.
Qed.

(** C9.  With a step size in [(0, 1]], after any sequence of [update] calls
    on a new object every stored frequency is non-negative. *)
Theorem update_frequencies_nonneg (greedy β : Qc) (l : list (State * Qc))
    (k : State) (f : Qc) :
  0 < β → β ≤ 1 →
  freqOf (trained greedy β l) !! k = Some f → 0 ≤ f.
Proof. intros Hb0 Hb1. by apply trained_nonneg. Qed.

(** *** The weighted walk *)

Lemma sumFreq_from (l : list (State * Qc)) : ∀ a,
  foldl (λ acc kv, acc + kv.2) a l = a + sumFreq l.
Proof.
  unfold sumFreq. induction l as [|kv l IH]; intros a; cbn [foldl].
  - ring.
  - rewrite (IH (a + kv.2)), (IH (0 + kv.2)). ring.
Qed.

Lemma sumFreq_cons kv (l : list (State * Qc)) : sumFreq (kv :: l) = kv.2 + sumFreq l.
Proof. unfold sumFreq at 1. cbn [foldl]. rewrite sumFreq_from. ring. Qed.

Lemma sumFreq_nonneg (l : list (State * Qc)) :
  (∀ kv, kv ∈ l → 0 ≤ kv.2) → 0 ≤ sumFreq l.
Proof.
  induction l as [|kv l IH]; intros Hn; [done|].
  rewrite sumFreq_cons. apply Qcplus_nonneg_nonneg.
  - apply Hn. by left.
  - apply IH. intros kv' ?. apply Hn. by right.
Qed.

Lemma sumFreq_pos (l : list (State * Qc)) kv :
  (∀ kv', kv' ∈ l → 0 ≤ kv'.2) → kv ∈ l → 0 < kv.2 → 0 < sumFreq l.
Proof.
  induction l as [|kv0 l IH]; intros Hn Hin Hpos.
  - by apply elem_of_nil in Hin.
  - rewrite sumFreq_cons. apply elem_of_cons in Hin as [<-|Hin].
    + apply Qcplus_pos_nonneg; [done|].
      apply sumFreq_nonneg. intros kv' ?. apply Hn. by right.
    + apply Qcplus_nonneg_pos; [apply Hn; by left|].
      apply IH; [|done..]. intros kv' ?. apply Hn. by right.
Qed.

(** A walk started below the sum of the weights stops at a key. *)
Lemma weightedWalk_returns (l : list (State * Qc)) : ∀ v,
  0 ≤ v → v < sumFreq l → ∃ k, weightedWalk l v = Ok k ∧ k ∈ l.*1.
Proof.
  induction l as [|[k f] l IH]; intros v Hv0 Hv.
  - unfold sumFreq in Hv. cbn [foldl] in Hv.
    by destruct (Qclt_not_le _ _ Hv).
  - rewrite sumFreq_cons in Hv. cbn [weightedWalk snd] in *.
    case_decide as Hlt.
    + exists k. split; [done|]. rewrite fmap_cons. by left.
    + destruct (IH (v - f)) as (k' & Hw & Hin).
      * qc_nra.
      * qc_nra.
      * exists k'. split; [done|]. rewrite fmap_cons. by right.
Qed.

End Proofs.

(** *** The statements at concrete objects, with [nat] for the states *)

Lemma update_frequencies_nonneg_witness :
  0 < Q2Qc (1 # 2) ∧ Q2Qc (1 # 2) ≤ 1
  ∧ freqOf (trained 1 (Q2Qc (1 # 2)) [(3%nat, 1)]) !! 3%nat = Some (Q2Qc (1 # 2))
  ∧ 0 ≤ Q2Qc (1 # 2).
Proof.
  assert (0 < Q2Qc (1 # 2)) as Hb0 by reflexivity.
  assert (Q2Qc (1 # 2) ≤ 1) as Hb1 by (by vm_compute).
  assert (freqOf (trained 1 (Q2Qc (1 # 2)) [(3%nat, 1)]) !! 3%nat
          = Some (Q2Qc (1 # 2))) as Hf by (vm_compute; reflexivity).
  split; [exact Hb0|]. split; [exact Hb1|]. split; [exact Hf|].
  exact (update_frequencies_nonneg (State := nat) 1 (Q2Qc (1 # 2)) [(3%nat, 1)]
           3%nat (Q2Qc (1 # 2)) Hb0 Hb1 Hf).
Defined.

Lemma getReward_missing_iff_witness :
  3%nat ∈ dom (freqOf (run (fresh 1 (Q2Qc (1 # 2))) [CallUpdate 3%nat 1]))
  ∧ ∃ r, rewOf (run (fresh 1 (Q2Qc (1 # 2))) [CallUpdate 3%nat 1]) !! 3%nat = Some r
         ∧ getReward 3%nat (run (fresh 1 (Q2Qc (1 # 2))) [CallUpdate 3%nat 1])
           = (Ok r, run (fresh 1 (Q2Qc (1 # 2))) [CallUpdate 3%nat 1]).
Proof.
  assert (3%nat ∈ dom (freqOf (run (fresh 1 (Q2Qc (1 # 2))) [CallUpdate 3%nat 1])))
    as Hin.
  { apply elem_of_dom. vm_compute. eexists. reflexivity. }
  split; [exact Hin|].
  exact (proj1 (proj2 (getReward_missing_iff (State := nat) 1 (Q2Qc (1 # 2))
                         [CallUpdate 3%nat 1] 3%nat)) Hin).
Defined.

End StateActionTransitionFacts.

(** ** StateActionTransition<S> in binary64 *)

Module StateActionTransition64Facts.
Import PrimFloat StateActionTransition64.

Abbreviation freqOf := _stateActionTransitionFrequency.

Section Proofs.
Context {State : Type} `{Countable State}.
Implicit Types (this : t State) (freq : gmap State FLOAT) (k s nextState : State).
Implicit Types (β f v reward : FLOAT).

(** *** The frequency map an [update] leaves behind *)








(** *** Repeated updates *)






End Proofs.

(** *** The statements at concrete objects, with [nat] for the states *)



(** C5.  [getNextState] on a new object throws the "nextStates are empty."
    exception, whatever the draws.  After [update(2, 1.0)], [update(3, 1.0)],
    [update(3, 1.0)] on a new object with greediness [1.0] and step size
    [0.8] (the double [0x1.999999999999ap-1]), the frequency map lists key
    [2] before key [3]; with the draws [c1 = 0.5] and [c2 = 1 − 2⁻⁵³], both in
    [[0, 1)], the weighted number is below the sum of the frequencies, and
    yet the walk passes both keys and ends in [assert(false)]. *)
Theorem getNextState_reaches_assert :
  (∀ (greedy stepSize c1 : FLOAT) (rd : N) (c2 : FLOAT),
     getNextState c1 rd c2 (fresh (State := nat) greedy stepSize)
     = (Throw Empty, fresh greedy stepSize))
  ∧ ((0 <? 0x1.999999999999ap-1)%float = true
     ∧ (0x1.999999999999ap-1 <=? 1)%float = true
     ∧ (0 <=? 0x1p-1)%float = true ∧ (0x1p-1 <? 1)%float = true
     ∧ (0 <=? 0x1.fffffffffffffp-1)%float = true
     ∧ (0x1.fffffffffffffp-1 <? 1)%float = true)
  ∧ (map_to_list
       (freqOf (trained 1%float 0x1.999999999999ap-1%float
                  [(2%nat, 1%float); (3%nat, 1%float); (3%nat, 1%float)]))).*1
    = [2%nat; 3%nat]
  ∧ (uniform_real_distribution 0%float
       (sumFreq (map_to_list
          (freqOf (trained 1%float 0x1.999999999999ap-1%float
                     [(2%nat, 1%float); (3%nat, 1%float); (3%nat, 1%float)]))))
       0x1.fffffffffffffp-1
     <? sumFreq (map_to_list
          (freqOf (trained 1%float 0x1.999999999999ap-1%float
                     [(2%nat, 1%float); (3%nat, 1%float); (3%nat, 1%float)]))))%float
    = true
  ∧ getNextState 0x1p-1%float 0 0x1.fffffffffffffp-1%float
      (trained 1%float 0x1.999999999999ap-1%float
         [(2%nat, 1%float); (3%nat, 1%float); (3%nat, 1%float)])
    = (AssertFailed,
       trained 1%float 0x1.999999999999ap-1%float
         [(2%nat, 1%float); (3%nat, 1%float); (3%nat, 1%float)]).
Proof.
  split; [done|]. vm_compute. repeat split; reflexivity.
Qed.

End StateActionTransition64Facts.

(** ** TileCodeCorrect<D, NUM_TILINGS> *)

Module TileCodeFacts.
Import TileCode.
Section Proofs.
Implicit Types (dims : list DimensionInfo.t) (gs : list N) (di : DimensionInfo.t).

(** *** The index as a mixed-radix number *)

Lemma foldl_accumulate gs dims : inGrid gs dims → ∀ acc,
  foldl (λ acc gd, accumulate acc gd.1 gd.2) acc (zip gs dims)
  = (acc.1 + acc.2 * positional dims gs, acc.2 * volume dims)%Z.
Proof.
  induction 1 as [|g di gs dims _ _ IH]; intros [h m]; cbn [zip zip_with foldl].
  - cbn. f_equal; lia.
  - rewrite IH. unfold accumulate. cbn [fst snd positional volume]. f_equal; lia.
Qed.

Lemma assemble_positional gs dims i :
  inGrid gs dims →
  assemble dims gs i = (positional dims gs + volume dims * Z.of_nat i)%Z.
Proof.
  intros Hg. unfold assemble. cbv zeta. rewrite foldl_accumulate by done.
  cbn [fst snd]. lia.
Qed.

Lemma volume_pos dims : (0 < volume dims)%Z.
Proof.
  induction dims as [|di dims IH]; cbn [volume]; [lia|].
  unfold DimensionInfo.GetGridCountReal. nia.
Qed.

Lemma positional_bound gs dims :
  inGrid gs dims → (0 ≤ positional dims gs < volume dims)%Z.
Proof.
  induction 1 as [|g di gs dims Hg _ IH]; cbn [positional volume]; [lia|].
  nia.
Qed.


Lemma calculateSize_volume NUM_TILINGS dims :
  Z.of_N (_calculateSize NUM_TILINGS dims) = (volume dims * Z.of_nat NUM_TILINGS)%Z.
Proof.
  unfold _calculateSize.
  assert (∀ a, Z.of_N (foldl (λ size di, size * DimensionInfo.GetGridCountReal di)%N a dims)
               = (Z.of_N a * volume dims)%Z) as Hfold.
  { induction dims as [|di dims IH]; intros a; cbn [foldl volume]; [lia|].
    rewrite IH. lia. }
  rewrite N2Z.inj_mul, Hfold. lia.
Qed.

Lemma assemble_bound NUM_TILINGS dims gs i :
  inGrid gs dims → (i < NUM_TILINGS)%nat →
  (0 ≤ assemble dims gs i < Z.of_N (_calculateSize NUM_TILINGS dims))%Z.
Proof.
  intros Hg Hi. rewrite assemble_positional, calculateSize_volume by done.
  pose proof (positional_bound gs dims Hg). pose proof (volume_pos dims). nia.
Qed.


(** *** The loops of [getFeatureVector] compute [assemble] *)

Lemma foldM_innerRound this parameters i : ∀ dsuf gsuf n acc,
  length gsuf = length dsuf →
  (∀ j g di acc', gsuf !! j = Some g → dsuf !! j = Some di →
      innerRound this parameters i acc' (n + j) = Ok (accumulate acc' g di)) →
  foldM (innerRound this parameters i) acc (seq n (length dsuf))
  = Ok (foldl (λ acc gd, accumulate acc gd.1 gd.2) acc (zip gsuf dsuf)).
Proof.
  induction dsuf as [|di dsuf IH]; intros gsuf n acc Hlen Hround.
  - by destruct gsuf.
  - destruct gsuf as [|g gsuf]; [done|].
    cbn [length seq foldM zip zip_with foldl].
    rewrite <-(Nat.add_0_r n) at 1. rewrite (Hround 0%nat g di) by done.
    cbn [mbind outcome_bind fst snd]. apply IH; [by injection Hlen|].
    intros j g' di' acc' Hg Hd.
    replace (S n + j)%nat with (n + S j)%nat by lia. by apply Hround.
Qed.

Lemma hashedIndex_assemble this parameters i gs :
  length gs = getDimension this →
  (∀ j g, gs !! j = Some g →
      ∃ param, parameters !! j = Some param
               ∧ paramToGridValue this param i j = Ok g) →
  hashedIndex this parameters i = Ok (assemble (_dimensionalInfos this) gs i).
Proof.
  intros Hlen Hgrid. unfold hashedIndex, getDimension, assemble.
  rewrite (foldM_innerRound this parameters i (_dimensionalInfos this) gs); [done..|].
  intros j g di acc' Hg Hd. cbn [Nat.add].
  destruct (Hgrid j g Hg) as (param & Hparam & Hval).
  unfold innerRound, at_, subscript. rewrite Hparam. cbn [mbind outcome_bind].
  rewrite Hval. cbn [mbind outcome_bind]. by rewrite Hd.
Qed.

(** *** Grid values of points inside the range *)

Lemma quotient_to_size_t_bound (num den : Qc) (G : N) :
  0 < den → 0 ≤ num / den → num / den < Qc_of_Z (Z.of_N G + 1) →
  ∃ g, quotient_to_size_t num den = Ok g ∧ (g ≤ G)%N.
Proof.
  intros Hden H0 HG. unfold quotient_to_size_t.
  rewrite decide_False by (intros ->; by apply Qclt_not_eq in Hden).
  rewrite decide_False; last first.
  { intros Hneg. apply (Qcle_not_lt _ _ (Qcle_trans _ _ _ H0 Hneg)). done. }
  eexists. split; [done|].
  assert (0 ≤ Qfloor (num / den)%Qc)%Z as Hlo.
  { rewrite <-(Qfloor_Z 0). apply Qfloor_resp_le. exact H0. }
  assert (Qfloor (num / den)%Qc < Z.of_N G + 1)%Z as Hhi.
  { rewrite Zlt_Qlt. eapply Qle_lt_trans; [apply Qfloor_le|]. exact HG. }
  lia.
Qed.

Lemma abs_range (lo hi : Qc) : lo < hi → DimensionInfo.abs (lo - hi) = hi - lo.
Proof.
  intros Hlt. unfold DimensionInfo.abs. rewrite decide_True; [ring|]. qc_nra.
Qed.

Lemma Qc_of_N_pos (G : N) : G ≠ 0%N → 0 < Qc_of_Z (Z.of_N G).
Proof.
  intros HG. unfold Qclt. cbn [this Qc_of_Z]. change (this 0) with (inject_Z 0).
  rewrite <-Zlt_Qlt. lia.
Qed.

Lemma Qc_of_Z_succ (z : Z) : Qc_of_Z (z + 1) = Qc_of_Z z + 1.
Proof.
  apply Qc_is_canon. unfold Qcplus, Q2Qc. cbn [this Qc_of_Z].
  rewrite !Qred_correct, inject_Z_plus. reflexivity.
Qed.

Lemma pos_nonzero (x : Qc) : 0 < x → x ≠ 0.
Proof. intros Hx ->. by apply Qclt_not_eq in Hx. Qed.

Lemma range_nonzero (lo hi : Qc) : lo < hi → hi - lo ≠ 0.
Proof.
  intros Hlt Hr. assert (hi = lo) as -> by (rewrite <-(Qcplus_0_l lo), <-Hr; ring).
  by apply Qclt_not_eq in Hlt.
Qed.

(** The quotient [paramToGridValue] converts, for a point of the range: the
    scaled position of the point plus the shift [u * gen * gen]. *)
Lemma grid_quotient (x lo hi u gen G : Qc) :
  lo < hi → 0 < G →
  (x + u * ((hi - lo) / G) * gen * gen - lo) * G / (hi - lo)
  = (x - lo) / (hi - lo) * G + u * gen * gen.
Proof.
  intros Hlt HG. field. split; [by apply range_nonzero|by apply pos_nonzero].
Qed.

Lemma grid_quotient_bound (x lo hi u gen G : Qc) :
  lo < hi → 0 < G → lo ≤ x → x ≤ hi → 0 ≤ u → u * gen * gen < 1 →
  0 ≤ (x - lo) / (hi - lo) * G + u * gen * gen
  ∧ (x - lo) / (hi - lo) * G + u * gen * gen < G + 1.
Proof.
  intros Hlt HG Hlo Hhi Hu Hshift.
  assert (∃ p, p * (hi - lo) = x - lo ∧ (x - lo) / (hi - lo) = p) as (p & Hp & ->).
  { eexists. split; [|done]. field. by apply range_nonzero. }
  assert (0 ≤ u * (gen * gen)).
  { apply Qcmult_nonneg_nonneg; [done|]. unfold Qcle. qc_nra. }
  assert (this (p * (hi - lo)) == this (x - lo))%Q as Hp' by (by rewrite Hp).
  clear Hp.
  assert (0 ≤ p ∧ p ≤ 1) as [Hp0 Hp1] by (split; qc_nra).
  split; qc_nra.
Qed.

Lemma paramToGridValue_new2 NUM_TILINGS dims sizeHint draw x i j di :
  (i < NUM_TILINGS)%nat → dims !! j = Some di →
  wellFormed di → inside x di → shiftBelowOne (draw i j) di →
  ∃ g, paramToGridValue (new2 NUM_TILINGS dims sizeHint draw) x i j = Ok g
       ∧ (g < DimensionInfo.GetGridCountReal di)%N.
Proof.
  intros Hi Hdi [Hrange HG] [Hlo Hhi] [Hu Hshift].
  destruct di as [[lo hi] G gen].
  unfold DimensionInfo.getLowerBound, DimensionInfo.getUpperBound,
    DimensionInfo.GetGridCountIdeal, DimensionInfo.getGeneralizationScale in *.
  cbn [DimensionInfo._range DimensionInfo._gridCountIdeal
       DimensionInfo._generalizationScale fst snd] in *.
  apply Qc_of_N_pos in HG.
  unfold paramToGridValue, new2, at_. cbn [_randomOffsets _dimensionalInfos].
  rewrite list_lookup_fmap, lookup_seq_lt by done. cbn [fmap option_fmap option_map].
  cbn [mbind outcome_bind]. rewrite list_lookup_imap, Hdi.
  cbn [fmap option_fmap option_map mbind outcome_bind]. cbv zeta.
  unfold DimensionInfo.getLowerBound, DimensionInfo.getUpperBound,
    DimensionInfo.GetGridCountIdeal, DimensionInfo.getGeneralizationScale,
    DimensionInfo.GetOffsets, DimensionInfo.GetRangeDifference,
    DimensionInfo.GetGridCountReal.
  cbn [DimensionInfo._range DimensionInfo._gridCountIdeal
       DimensionInfo._generalizationScale fst snd Nat.add].
  rewrite abs_range by done.
  destruct (grid_quotient_bound x lo hi (draw i j) gen (Qc_of_Z (Z.of_N G)))
    as [Hq0 Hq1]; [done..|].
  rewrite <-grid_quotient in Hq0, Hq1 by done.
  destruct (quotient_to_size_t_bound
              ((x + draw i j * ((hi - lo) / Qc_of_Z (Z.of_N G)) * gen * gen - lo)
               * Qc_of_Z (Z.of_N G)) (hi - lo) G) as (g & -> & Hg).
  - qc_nra.
  - done.
  - by rewrite Qc_of_Z_succ.
  - exists g. split; [done|lia].
Qed.

Lemma list_choice {A} (P : nat → A → Prop) (n : nat) :
  (∀ j, (j < n)%nat → ∃ a, P j a) →
  ∃ l : list A, length l = n ∧ ∀ j a, l !! j = Some a → P j a.
Proof.
  induction n as [|n IH]; intros HP.
  - exists []. split; [done|]. intros j a. by rewrite lookup_nil.
  - destruct IH as (l & Hlen & Hl); [intros j ?; apply HP; lia|].
    destruct (HP n) as [a Ha]; [lia|].
    exists (l ++ [a]). split; [rewrite length_app; cbn; lia|].
    intros j b Hj. destruct (decide (j < length l)%nat) as [Hlt|Hge].
    + rewrite lookup_app_l in Hj by done. by apply Hl.
    + rewrite lookup_app_r in Hj by lia.
      apply list_lookup_singleton_Some in Hj as [Hj <-].
      replace j with n by lia. done.
Qed.

Lemma mapM_Ok {A B} (f : A → outcome B) (P : B → Prop) (l : list A) :
  (∀ x, x ∈ l → ∃ y, f x = Ok y ∧ P y) →
  ∃ ys, mapM f l = Ok ys ∧ length ys = length l ∧ Forall P ys.
Proof.
  induction l as [|x l IH]; intros Hf.
  - exists []. by repeat split.
  - destruct (Hf x) as (y & Hy & HPy); [by left|].
    destruct IH as (ys & Hys & Hlen & HP); [intros x' ?; apply Hf; by right|].
    exists (y :: ys). cbn [mapM]. rewrite Hy. cbn [mbind outcome_bind].
    rewrite Hys. cbn [mbind outcome_bind mret outcome_ret length].
    split; [done|]. split; [by rewrite Hlen|by constructor].
Qed.

(** Where the indices stay inside the weight vector when nothing is rounded:
    for a coder built by [TileCode(dimensionalInfos)] over well-formed
    dimensions, every shift below one grid cell and every coordinate of the
    point inside its range, [getFeatureVector] computed in exact arithmetic
    returns [NUM_TILINGS] indices, each in [[0, getSize())]. *)
Lemma getFeatureVector_in_range NUM_TILINGS dims draw parameters :
  Forall wellFormed dims →
  Forall2 inside parameters dims →
  (∀ i j di, (i < NUM_TILINGS)%nat → dims !! j = Some di →
      shiftBelowOne (draw i j) di) →
  ∃ fv, getFeatureVector NUM_TILINGS (new NUM_TILINGS dims draw) parameters = Ok fv
        ∧ length fv = NUM_TILINGS
        ∧ Forall (λ idx, 0 ≤ idx < Z.of_N (getSize (new NUM_TILINGS dims draw)))%Z fv.
Proof.
  intros Hwf Hin Hshift. unfold getFeatureVector.
  destruct (mapM_Ok
    (λ i, idx ← hashedIndex (new NUM_TILINGS dims draw) parameters i;
          if decide (idx ≤ Z.of_N (_sizeCache (new NUM_TILINGS dims draw)))%Z
          then Ok idx else AssertFailed)
    (λ idx, 0 ≤ idx < Z.of_N (getSize (new NUM_TILINGS dims draw)))%Z
    (seq 0 NUM_TILINGS)) as (fv & Hfv & Hlen & HP).
  - intros i Hi. apply elem_of_seq in Hi as [_ Hi]. cbn [Nat.add] in Hi.
    destruct (list_choice (λ j g, ∃ param di,
                 parameters !! j = Some param ∧ dims !! j = Some di
                 ∧ paramToGridValue (new NUM_TILINGS dims draw) param i j = Ok g
                 ∧ (g < DimensionInfo.GetGridCountReal di)%N) (length dims))
      as (gs & Hgslen & Hgs).
    { intros j Hj. destruct (lookup_lt_is_Some_2 dims j Hj) as [di Hdi].
      destruct (Forall2_lookup_r _ _ _ _ _ Hin Hdi) as (param & Hparam & Hinside).
      destruct (paramToGridValue_new2 NUM_TILINGS dims
                  (_calculateSize NUM_TILINGS dims) draw param i j di)
        as (g & Hg & Hlt); [done|done| |done| |].
      - by eapply Forall_lookup_1.
      - by apply Hshift.
      - exists g, param, di. done. }
    assert (inGrid gs dims) as Hgrid.
    { apply Forall2_same_length_lookup_2; [done|].
      intros j g di Hg Hdi. destruct (Hgs j g Hg) as (? & di' & _ & Hdi' & _ & Hlt).
      by simplify_eq. }
    rewrite (hashedIndex_assemble _ _ _ gs); [|done|]; last first.
    { intros j g Hg. destruct (Hgs j g Hg) as (param & ? & ? & _ & ? & _). eauto. }
    cbn [mbind outcome_bind].
    pose proof (assemble_bound NUM_TILINGS dims gs i Hgrid Hi) as Hb.
    eexists. rewrite decide_True; [done|].
    change (_sizeCache (new NUM_TILINGS dims draw)) with (_calculateSize NUM_TILINGS dims).
    change (_dimensionalInfos (new NUM_TILINGS dims draw)) with dims. lia.
  - exists fv. by rewrite length_seq in Hlen.
Qed.

(** *** Injectivity, the scenario and the overflow of the weight vector *)


End Proofs.


(** C4.  One dimension [DimensionInfo(0, 1, 10, 1)], one tiling, every random
    offset zero: the feature vectors of [0.0], [1.0] and [0.55] are [[0]],
    [[10]] and [[5]]. *)
Theorem getFeatureVector_scenario :
  let this := new 1 [DimensionInfo.mk (0, 1) 10 1] (λ _ _, 0) in
  _randomOffsets this = [[0]]
  ∧ getFeatureVector 1 this [0] = Ok [0%Z]
  ∧ getFeatureVector 1 this [1] = Ok [10%Z]
  ∧ getFeatureVector 1 this [Q2Qc (55 # 100)] = Ok [5%Z].
Proof. vm_compute. done. Qed.

(** C2.  An index can reach and pass [getSize()] for a point inside the
    range.  With [DimensionInfo(0, 1, 10, 3)], one tiling and the draw
    [0.131538], the point [1.0] gets the feature vector [[11]] although
    [getSize()] is [11]: the [assert], written with [<=], lets the index
    through.  With [DimensionInfo(0, 1, 10, 2)] and the draw [0.6] the index
    is [12] and the [assert] itself fails.  The shift of a tiling is
    [draw * generalizationScale * generalizationScale] grid cells, the scale
    being applied once by the constructor and once by [paramToGridValue];
    [getFeatureVector_in_range] above covers, in exact arithmetic, the coders
    where it stays below one cell. *)
Theorem getFeatureVector_exceeds_size :
  (let di := DimensionInfo.mk (0, 1) 10 (Qc_of_Z 3) in
   let u := Q2Qc (131538 # 1000000) in
   let this := new 1 [di] (λ _ _, u) in
   wellFormed di ∧ inside 1 di ∧ 0 ≤ u ∧ u < 1
   ∧ getSize this = 11%N
   ∧ getFeatureVector 1 this [1] = Ok [11%Z])
  ∧ (let di := DimensionInfo.mk (0, 1) 10 (Qc_of_Z 2) in
     let u := Q2Qc (3 # 5) in
     let this := new 1 [di] (λ _ _, u) in
     wellFormed di ∧ inside 1 di ∧ 0 ≤ u ∧ u < 1
     ∧ getSize this = 11%N
     ∧ hashedIndex this [1] 0 = Ok 12%Z
     ∧ getFeatureVector 1 this [1] = AssertFailed).
Proof. vm_compute. repeat split; done. Qed.

End TileCodeFacts.

(** ** Construction *)

Module ConstructionFacts.

(** C8.  Construction performs no validation.  Neither constructor inspects
    its arguments:
    for all values, also a zero grid count, an upper bound not above the lower
    one or a step size outside [(0, 1]], a [DimensionInfo] and a
    [StateActionTransition] are built, nothing is thrown, and the getters give
    the arguments back. *)
Theorem construction_never_raises :
  (∀ (lowerRange higherRange : Qc) (gridCount : N) (generalizationScale : Qc),
      ∃ di, DimensionInfo.new lowerRange higherRange gridCount generalizationScale
            = Ok di
            ∧ DimensionInfo.getLowerBound di = lowerRange
            ∧ DimensionInfo.getUpperBound di = higherRange
            ∧ DimensionInfo.GetGridCountIdeal di = gridCount
            ∧ DimensionInfo.getGeneralizationScale di = generalizationScale)
  ∧ (∀ (lowerRange higherRange : Qc) (gridCount : N),
      ∃ di, DimensionInfo.new3 lowerRange higherRange gridCount = Ok di
            ∧ DimensionInfo.getLowerBound di = lowerRange
            ∧ DimensionInfo.getUpperBound di = higherRange
            ∧ DimensionInfo.GetGridCountIdeal di = gridCount
            ∧ DimensionInfo.getGeneralizationScale di = 1)
  ∧ (∀ {State : Type} `{Countable State} (greedy stepSize : Qc),
      ∃ sat : StateActionTransition.t State,
        StateActionTransition.new greedy stepSize = Ok sat
        ∧ StateActionTransition.getGreedy sat = greedy
        ∧ StateActionTransition.getStepSize sat = stepSize
        ∧ StateActionTransition.getSize sat = 0%nat).
Proof.
  split; [|split].
  - intros. eexists. by repeat split.
  - intros. eexists. by repeat split.
  - intros. eexists. by repeat split.
Qed.

(** A grid count of zero with an upper bound below the lower one, and a step
    size of [-1] with a greediness of [2], are accepted: nothing is raised. *)
Lemma invalid_config_accepted :
  let lowerRange := 1 in
  let higherRange := 0 in
  let gridCount := 0%N in
  higherRange ≤ lowerRange ∧ (gridCount ≤ 0)%N
  ∧ ¬ raises (DimensionInfo.new lowerRange higherRange gridCount 1)
  ∧ ¬ raises (DimensionInfo.new3 lowerRange higherRange gridCount)
  ∧ ¬ raises (StateActionTransition.new (State := nat) 2 (-1)).
Proof.
  cbv zeta. split; [by vm_compute|]. split; [done|].
  repeat split; intros [e He]; discriminate He.
Qed.

End ConstructionFacts.

(** * Further properties *)

(** ** StateActionTransition<S> *)

Module StateActionTransitionMore.
Import StateActionTransition StateActionTransitionFacts.

Section Proofs.
Context {State : Type} `{Countable State}.
Implicit Types (this : t State) (freq rew : gmap State Qc) (k s nextState : State).
Implicit Types (l : list (State * Qc)).

(** *** Rewards and sizes *)


(** X2.  [update(nextState, reward)] raises [getSize()] by one when [nextState]
    was not a key and leaves it unchanged when it was. *)
Theorem getSize_after_update this nextState reward :
  getSize (update nextState reward this).2
  = if decide (nextState ∈ dom (freqOf this)) then getSize this
    else S (getSize this).
Proof.
  unfold getSize. rewrite update_freq, map_size_insert, lookup_fmap.
  case_decide as Hin.
  - apply elem_of_dom in Hin as [f ->]. cbn. by rewrite map_size_fmap.
  - apply not_elem_of_dom in Hin as ->. cbn. by rewrite map_size_fmap.
Qed.

(** X3.  After a sequence of [update] calls on a new object, the keys of the
    frequency map, and those of the reward map, are exactly the states that
    were passed to [update]. *)
Theorem trained_keys (greedy β : Qc) l :
  dom (freqOf (trained greedy β l)) = list_to_set l.*1
  ∧ dom (rewOf (trained greedy β l)) = list_to_set l.*1.
Proof.
  induction l as [|[s r] l [IHf IHr]] using rev_ind.
  - unfold trained. cbn. by rewrite !dom_empty_L.
  - rewrite trained_snoc, update_dom_freq, update_dom_rew, IHf, IHr.
    rewrite fmap_app, list_to_set_app_L. cbn [fmap list_fmap fst list_to_set].
    by rewrite (right_id_L ∅ (∪)), (comm_L (∪)).
Qed.

(** *** A step size of one *)






(** *** Bounds *)

Lemma trained_le_one greedy β l k f :
  0 < β → β ≤ 1 → freqOf (trained greedy β l) !! k = Some f → f ≤ 1.
Proof.
  intros Hb0 Hb1. revert k f.
  induction l as [|[s r] l IH] using rev_ind; intros k f.
  - unfold trained. cbn. by rewrite lookup_empty.
  - rewrite trained_snoc, update_freq, trained_stepSize, lookup_insert.
    pose proof (trained_nonneg greedy β l Hb0 Hb1) as Hn.
    case_decide as Hk.
    + intros [= <-].
      assert (map_get (freqOf (trained greedy β l)) s ≤ 1) as Hle.
      { unfold map_get. destruct (freqOf (trained greedy β l) !! s) as [f0|] eqn:E.
        - by apply (IH s).
        - by vm_compute. }
      pose proof (map_get_nonneg (trained greedy β l) s Hn).
      unfold raised. qc_nra.
    + rewrite lookup_fmap.
      destruct (freqOf (trained greedy β l) !! k) as [f0|] eqn:E; [|done].
      intros [= <-]. pose proof (IH k f0 E). pose proof (Hn k f0 E).
      unfold lowered. qc_nra.
Qed.

(** X6.  With a step size in [(0, 1]], after any sequence of [update] calls
    on a new object every stored frequency lies between [0] and [1]. *)
Theorem frequencies_at_most_one (greedy β : Qc) l k f :
  0 < β → β ≤ 1 → freqOf (trained greedy β l) !! k = Some f → 0 ≤ f ∧ f ≤ 1.
Proof.
  intros Hb0 Hb1 Hf. split.
  - by apply (trained_nonneg greedy β l Hb0 Hb1 k).
  - by apply (trained_le_one greedy β l k).
Qed.

(** *** What the weighted walk returns *)

Lemma trained_greedy greedy β l : _greedy (trained greedy β l) = greedy.
Proof.
  induction l as [|[s r] l IH] using rev_ind; [done|].
  rewrite trained_snoc. by destruct (update_scalars s r (trained greedy β l)) as [-> _].
Qed.

Lemma weightedWalk_positive l : ∀ v k,
  0 ≤ v → weightedWalk l v = Ok k → ∃ f, (k, f) ∈ l ∧ 0 < f.
Proof.
  induction l as [|[k0 f0] l IH]; intros v k Hv Hw; [done|].
  cbn [weightedWalk] in Hw. case_decide as Hlt.
  - injection Hw as <-. exists f0. split; [by left|].
    by eapply Qcle_lt_trans.
  - destruct (IH (v - f0) k) as (f & Hin & Hf); [qc_nra|done|].
    exists f. split; [by right|done].
Qed.

(** X8.  With a step size in [(0, 1]], whenever [getNextState] returns a
    state from its weighted selection (the first draw does not exceed the
    greediness), the stored frequency of that state is positive: a state
    whose frequency is zero is never selected by weight. *)
Theorem getNextState_weighted_positive (greedy β : Qc) l c1 rd c2 k :
  0 < β → β ≤ 1 →
  uniform_real_distribution 0 1 c1 ≤ greedy → 0 ≤ c2 →
  getNextState c1 rd c2 (trained greedy β l) = (Ok k, trained greedy β l) →
  ∃ f, freqOf (trained greedy β l) !! k = Some f ∧ 0 < f.
Proof.
  intros Hb0 Hb1 Hgreedy Hc0.
  set (this := trained greedy β l).
  assert (freq_nonneg this) as Hn by (by apply trained_nonneg).
  assert (0 ≤ sumFreq (map_to_list (freqOf this))) as HF.
  { apply sumFreq_nonneg. intros [k' f'] Hin.
    apply elem_of_map_to_list in Hin. by apply (Hn k'). }
  assert (0 ≤ uniform_real_distribution 0 (sumFreq (map_to_list (freqOf this))) c2)
    as Hv0 by (unfold uniform_real_distribution; qc_nra).
  unfold getNextState. cbv zeta.
  case_decide as Hsz; [done|].
  assert (_greedy this = greedy) as -> by apply trained_greedy.
  rewrite decide_False by (by apply Qcle_not_lt).
  intros [= Hw].
  destruct (weightedWalk_positive _ _ _ Hv0 Hw) as (f & Hin & Hf).
  exists f. split; [by apply elem_of_map_to_list|done].
Qed.

(** *** The uniform choice *)

(** X9.  When the first draw exceeds the greediness, [getNextState] ignores
    the frequencies: on every object with at least one key it returns a key,
    and every key is returned for some value of the device word. *)
Theorem getNextState_uniform_choice this c1 c2 :
  _greedy this < uniform_real_distribution 0 1 c1 →
  (∀ rd, getSize this ≠ 0%nat →
     ∃ k, getNextState c1 rd c2 this = (Ok k, this) ∧ k ∈ dom (freqOf this))
  ∧ (∀ k, k ∈ dom (freqOf this) → ∃ rd, getNextState c1 rd c2 this = (Ok k, this)).
Proof.
  intros Hgreedy. unfold getSize. split.
  - intros rd Hsz. unfold getNextState. cbv zeta.
    rewrite decide_False, decide_True by done.
    destruct (lookup_lt_is_Some_2 (map_to_list (freqOf this))
                (N.to_nat rd `mod` size (freqOf this))%nat) as [[k f] Hk].
    { rewrite length_map_to_list. by apply Nat.mod_upper_bound. }
    rewrite Hk. exists k. split; [done|].
    apply list_elem_of_lookup_2, elem_of_map_to_list in Hk. by apply elem_of_dom.
  - intros k [f Hk]%elem_of_dom.
    apply elem_of_map_to_list, list_elem_of_lookup in Hk as [i Hi].
    pose proof (lookup_lt_Some _ _ _ Hi) as Hlt. rewrite length_map_to_list in Hlt.
    exists (N.of_nat i). unfold getNextState. cbv zeta.
    rewrite decide_False by lia. rewrite decide_True by done.
    by rewrite Nat2N.id, Nat.mod_small, Hi.
Qed.

(** *** Step sizes outside the range *)

Lemma trained_zero greedy l k f :
  freqOf (trained greedy 0 l) !! k = Some f → f = 0.
Proof.
  revert k f. induction l as [|[s r] l IH] using rev_ind; intros k f.
  - unfold trained. cbn. by rewrite lookup_empty.
  - rewrite trained_snoc, update_freq, trained_stepSize, lookup_insert.
    case_decide as Hk.
    + intros [= <-]. unfold raised, map_get.
      destruct (freqOf (trained greedy 0 l) !! s) as [f0|] eqn:E;
        cbn [default from_option id].
      * rewrite (IH s f0 E). ring.
      * ring.
    + rewrite lookup_fmap.
      destruct (freqOf (trained greedy 0 l) !! k) as [f0|] eqn:E; [|done].
      intros [= <-]. rewrite (IH k f0 E). unfold lowered. ring.
Qed.

Lemma sumFreq_zero l : (∀ k f, (k, f) ∈ l → f = 0) → sumFreq l = 0.
Proof.
  induction l as [|[k f] l IH]; intros Hl; [done|].
  rewrite sumFreq_cons, IH by (intros k' f' ?; apply (Hl k'); by right).
  rewrite (Hl k f) by (by left). cbn. ring.
Qed.

Lemma weightedWalk_zero l :
  (∀ k f, (k, f) ∈ l → f = 0) → weightedWalk l 0 = AssertFailed.
Proof.
  induction l as [|[k f] l IH]; intros Hl; [done|].
  cbn [weightedWalk]. rewrite (Hl k f) by (by left).
  rewrite decide_False by (by apply Qcle_not_lt).
  replace (0 - 0) with 0 by ring. apply IH. intros k' f' ?. apply (Hl k'). by right.
Qed.

(** X10.  With a step size of [0] every stored frequency stays [0], and the
    weighted selection of [getNextState] walks past every key and ends in
    [assert(false)]. *)
Theorem getNextState_zero_stepSize (greedy : Qc) l c1 rd c2 :
  l ≠ [] → uniform_real_distribution 0 1 c1 ≤ greedy →
  getNextState c1 rd c2 (trained greedy 0 l) = (AssertFailed, trained greedy 0 l).
Proof.
  intros Hl Hgreedy.
  assert (∀ k f, (k, f) ∈ map_to_list (freqOf (trained greedy 0 l)) → f = 0) as Hz.
  { intros k f Hin. apply elem_of_map_to_list in Hin. by eapply trained_zero. }
  unfold getNextState. cbv zeta. rewrite trained_greedy.
  rewrite decide_False; last first.
  { destruct l as [|[s r] l _] using rev_ind; [done|].
    intros Hsz. apply map_size_empty_inv in Hsz.
    assert (s ∈ dom (freqOf (trained greedy 0 (l ++ [(s, r)])))) as Hin.
    { rewrite trained_snoc, update_dom_freq. apply elem_of_union_l.
      by apply elem_of_singleton. }
    rewrite Hsz, dom_empty_L in Hin. by apply elem_of_empty in Hin. }
  rewrite decide_False by (by apply Qcle_not_lt).
  rewrite sumFreq_zero by done.
  replace (uniform_real_distribution 0 0 c2) with 0
    by (unfold uniform_real_distribution; ring).
  by rewrite weightedWalk_zero.
Qed.


End Proofs.

(** *** The statements at concrete objects, with [nat] for the states *)




Lemma frequencies_at_most_one_witness :
  0 < Q2Qc (1 # 2) ∧ Q2Qc (1 # 2) ≤ 1
  ∧ freqOf (trained 1 (Q2Qc (1 # 2)) [(3%nat, 1); (3%nat, 1)]) !! 3%nat
    = Some (Q2Qc (3 # 4))
  ∧ 0 ≤ Q2Qc (3 # 4) ∧ Q2Qc (3 # 4) ≤ 1.
Proof.
  assert (0 < Q2Qc (1 # 2)) as Hb0 by reflexivity.
  assert (Q2Qc (1 # 2) ≤ 1) as Hb1 by (by vm_compute).
  assert (freqOf (trained 1 (Q2Qc (1 # 2)) [(3%nat, 1); (3%nat, 1)]) !! 3%nat
          = Some (Q2Qc (3 # 4))) as Hf
    by (vm_compute; f_equal; apply Qc_is_canon; reflexivity).
  split; [exact Hb0|]. split; [exact Hb1|]. split; [exact Hf|].
  exact (frequencies_at_most_one (State := nat) 1 (Q2Qc (1 # 2))
           [(3%nat, 1); (3%nat, 1)] 3%nat (Q2Qc (3 # 4)) Hb0 Hb1 Hf).
Defined.

Lemma getNextState_weighted_positive_witness :
  0 < Q2Qc (1 # 2) ∧ Q2Qc (1 # 2) ≤ 1
  ∧ uniform_real_distribution 0 1 (Q2Qc (1 # 2)) ≤ 1
  ∧ 0 ≤ Q2Qc (1 # 3)
  ∧ getNextState (Q2Qc (1 # 2)) 5 (Q2Qc (1 # 3))
      (trained 1 (Q2Qc (1 # 2)) [(3%nat, 1); (2%nat, 0)])
    = (Ok 2%nat, trained 1 (Q2Qc (1 # 2)) [(3%nat, 1); (2%nat, 0)])
  ∧ ∃ f, freqOf (trained 1 (Q2Qc (1 # 2)) [(3%nat, 1); (2%nat, 0)]) !! 2%nat = Some f
         ∧ 0 < f.
Proof.
  assert (0 < Q2Qc (1 # 2)) as Hb0 by reflexivity.
  assert (Q2Qc (1 # 2) ≤ 1) as Hb1 by (by vm_compute).
  assert (uniform_real_distribution 0 1 (Q2Qc (1 # 2)) ≤ 1) as Hg by (by vm_compute).
  assert (0 ≤ Q2Qc (1 # 3)) as Hc0 by (by vm_compute).
  assert (getNextState (Q2Qc (1 # 2)) 5 (Q2Qc (1 # 3))
            (trained 1 (Q2Qc (1 # 2)) [(3%nat, 1); (2%nat, 0)])
          = (Ok 2%nat, trained 1 (Q2Qc (1 # 2)) [(3%nat, 1); (2%nat, 0)])) as Hret
    by (vm_compute; reflexivity).
  split; [exact Hb0|]. split; [exact Hb1|]. split; [exact Hg|].
  split; [exact Hc0|]. split; [exact Hret|].
  exact (getNextState_weighted_positive (State := nat) 1 (Q2Qc (1 # 2))
           [(3%nat, 1); (2%nat, 0)] (Q2Qc (1 # 2)) 5%N (Q2Qc (1 # 3)) 2%nat
           Hb0 Hb1 Hg Hc0 Hret).
Defined.

Lemma getNextState_uniform_choice_witness :
  _greedy (trained (State := nat) 0 (Q2Qc (1 # 2)) [(3%nat, 1); (2%nat, 0)])
  < uniform_real_distribution 0 1 (Q2Qc (1 # 2))
  ∧ getSize (trained (State := nat) 0 (Q2Qc (1 # 2)) [(3%nat, 1); (2%nat, 0)]) ≠ 0%nat
  ∧ 2%nat ∈ dom (freqOf (trained 0 (Q2Qc (1 # 2)) [(3%nat, 1); (2%nat, 0)]))
  ∧ (∃ k, getNextState (Q2Qc (1 # 2)) 5 0
            (trained 0 (Q2Qc (1 # 2)) [(3%nat, 1); (2%nat, 0)])
          = (Ok k, trained 0 (Q2Qc (1 # 2)) [(3%nat, 1); (2%nat, 0)])
          ∧ k ∈ dom (freqOf (trained 0 (Q2Qc (1 # 2)) [(3%nat, 1); (2%nat, 0)])))
  ∧ ∃ rd, getNextState (Q2Qc (1 # 2)) rd 0
            (trained 0 (Q2Qc (1 # 2)) [(3%nat, 1); (2%nat, 0)])
          = (Ok 2%nat, trained 0 (Q2Qc (1 # 2)) [(3%nat, 1); (2%nat, 0)]).
Proof.
  assert (_greedy (trained (State := nat) 0 (Q2Qc (1 # 2)) [(3%nat, 1); (2%nat, 0)])
          < uniform_real_distribution 0 1 (Q2Qc (1 # 2))) as Hg by reflexivity.
  assert (getSize (trained (State := nat) 0 (Q2Qc (1 # 2)) [(3%nat, 1); (2%nat, 0)])
          ≠ 0%nat) as Hsz by (vm_compute; discriminate).
  assert (2%nat ∈ dom (freqOf (trained 0 (Q2Qc (1 # 2)) [(3%nat, 1); (2%nat, 0)])))
    as Hin by (apply elem_of_dom; vm_compute; eexists; reflexivity).
  destruct (getNextState_uniform_choice (State := nat)
              (trained 0 (Q2Qc (1 # 2)) [(3%nat, 1); (2%nat, 0)]) (Q2Qc (1 # 2)) 0 Hg)
    as [Htotal Hreach].
  split; [exact Hg|]. split; [exact Hsz|]. split; [exact Hin|].
  split; [exact (Htotal 5%N Hsz)|exact (Hreach 2%nat Hin)].
Defined.

Lemma getNextState_zero_stepSize_witness :
  [(3%nat, 1)] ≠ [] ∧ uniform_real_distribution 0 1 (Q2Qc (1 # 2)) ≤ 1
  ∧ getNextState (Q2Qc (1 # 2)) 5 (Q2Qc (1 # 3)) (trained 1 0 [(3%nat, 1)])
    = (AssertFailed, trained 1 0 [(3%nat, 1)]).
Proof.
  assert ([(3%nat, 1)] ≠ []) as Hl by discriminate.
  assert (uniform_real_distribution 0 1 (Q2Qc (1 # 2)) ≤ 1) as Hg by (by vm_compute).
  split; [exact Hl|]. split; [exact Hg|].
  exact (getNextState_zero_stepSize (State := nat) 1 [(3%nat, 1)]
           (Q2Qc (1 # 2)) 5%N (Q2Qc (1 # 3)) Hl Hg).
Defined.


End StateActionTransitionMore.

(** ** TileCode<D, NUM_TILINGS>, TileCodeCorrect<D, NUM_TILINGS> and DimensionInfo *)

Module TileCodeMore.
Import TileCode TileCodeFacts.

Section Proofs.
Implicit Types (dims : list DimensionInfo.t) (gs : list N) (di : DimensionInfo.t).
Implicit Types (this : t) (fv : list Z) (parameters : list Qc).

(** *** What a returned feature vector looks like *)

Lemma mapM_Ok_inv {A B} (f : A → outcome B) (l : list A) : ∀ ys,
  mapM f l = Ok ys →
  length ys = length l
  ∧ ∀ n y, ys !! n = Some y → ∃ x, l !! n = Some x ∧ f x = Ok y.
Proof.
  induction l as [|x l IH]; intros ys; cbn [mapM].
  - intros [= <-]. split; [done|]. intros n y. by rewrite lookup_nil.
  - destruct (f x) as [y0| | |] eqn:Hx; cbn [mbind outcome_bind]; [|done..].
    destruct (mapM f l) as [ys0| | |] eqn:Hl; cbn [mbind outcome_bind mret outcome_ret];
      [|done..].
    intros [= <-]. destruct (IH ys0 eq_refl) as [Hlen Hys].
    split; [cbn [length]; by rewrite Hlen|].
    intros [|n] y; cbn; [intros [= <-]; by exists x|by apply Hys].
Qed.

Lemma innerRound_Ok this parameters i acc j acc' :
  innerRound this parameters i acc j = Ok acc' →
  ∃ g di, _dimensionalInfos this !! j = Some di ∧ acc' = accumulate acc g di.
Proof.
  unfold innerRound, at_, subscript.
  destruct (parameters !! j) as [param|]; cbn [mbind outcome_bind]; [|done].
  destruct (paramToGridValue this param i j) as [g| | |];
    cbn [mbind outcome_bind]; [|done..].
  destruct (_dimensionalInfos this !! j) as [di|]; cbn [mbind outcome_bind]; [|done].
  intros [= <-]. by exists g, di.
Qed.

Lemma foldM_innerRound_inv this parameters i : ∀ dsuf n acc acc',
  (∀ j di, dsuf !! j = Some di → _dimensionalInfos this !! (n + j)%nat = Some di) →
  (0 ≤ acc.2)%Z →
  foldM (innerRound this parameters i) acc (seq n (length dsuf)) = Ok acc' →
  (acc.1 ≤ acc'.1)%Z ∧ acc'.2 = (acc.2 * volume dsuf)%Z.
Proof.
  induction dsuf as [|di dsuf IH]; intros n acc acc' Hsuf Hacc;
    cbn [length seq foldM volume].
  - intros [= <-]. lia.
  - destruct (innerRound this parameters i acc n) as [acc1| | |] eqn:Hround;
      cbn [mbind outcome_bind]; [|done..].
    apply innerRound_Ok in Hround as (g & di' & Hdi' & ->).
    rewrite <-(Nat.add_0_r n), (Hsuf 0%nat di) in Hdi' by done.
    injection Hdi' as <-. intros Hfold.
    apply IH in Hfold as [Hle Hmult].
    + unfold accumulate in *. cbn [fst snd] in *.
      unfold DimensionInfo.GetGridCountReal in *. split; [nia|]. rewrite Hmult. lia.
    + intros j di' Hj. replace (S n + j)%nat with (n + S j)%nat by lia.
      by apply Hsuf.
    + unfold accumulate. cbn [fst snd]. unfold DimensionInfo.GetGridCountReal. nia.
Qed.

Lemma hashedIndex_Ok this parameters i idx :
  hashedIndex this parameters i = Ok idx →
  (volume (_dimensionalInfos this) * Z.of_nat i ≤ idx)%Z.
Proof.
  unfold hashedIndex, getDimension.
  destruct (foldM _ _ _) as [acc| | |] eqn:Hfold; cbn [mbind outcome_bind]; [|done..].
  apply (foldM_innerRound_inv this parameters i (_dimensionalInfos this) 0) in Hfold
    as [Hle Hmult]; [|done|cbn; lia].
  intros [= <-]. cbn [fst snd] in *. lia.
Qed.

Lemma featureVector_returned NUM_TILINGS this parameters fv :
  getFeatureVector NUM_TILINGS this parameters = Ok fv →
  length fv = NUM_TILINGS
  ∧ ∀ i idx, fv !! i = Some idx →
      (volume (_dimensionalInfos this) * Z.of_nat i ≤ idx ≤ Z.of_N (getSize this))%Z.
Proof.
  unfold getFeatureVector. intros [Hlen Hfv]%mapM_Ok_inv.
  rewrite length_seq in Hlen. split; [done|].
  intros i idx Hidx. destruct (Hfv i idx Hidx) as (i' & Hi' & Hround).
  apply lookup_seq in Hi' as [-> _]. cbn [Nat.add] in Hround.
  destruct (hashedIndex this parameters i) as [idx'| | |] eqn:Hh;
    cbn [mbind outcome_bind] in Hround; [|done..].
  case_decide as Hle; [|done]. injection Hround as ->.
  split; [by eapply hashedIndex_Ok|done].
Qed.


(** *** The weights *)

(** X14.  On a coder as constructed, [at(i) const] is [0] for every [i] below
    [getSize()] and throws [std::out_of_range] for every other [i]. *)
Theorem at_const_new NUM_TILINGS dims (sizeHint : N) draw (i : nat) :
  at_const (new2 NUM_TILINGS dims sizeHint draw) i
  = if decide (i < N.to_nat (getSize (new2 NUM_TILINGS dims sizeHint draw)))%nat
    then Ok 0 else Throw out_of_range.
Proof.
  unfold at_const, at_, new2, getSize. cbn [_w _sizeCache].
  case_decide as Hi.
  - by rewrite lookup_replicate_2.
  - rewrite lookup_ge_None_2; [done|]. rewrite length_replicate. lia.
Qed.

(** X15.  A store through [at(i)] throws [std::out_of_range] when [i] is not
    below the number of weights; otherwise it succeeds, [at(i)] then reads the
    stored value, every other weight, the number of weights and [getSize()]
    are unchanged, and so is every feature vector. *)
Theorem at_store_at_const NUM_TILINGS this (i : nat) (v : Qc) :
  (length (_w this) ≤ i → at_store this i v = Throw out_of_range)%nat
  ∧ ((i < length (_w this))%nat →
     ∃ this', at_store this i v = Ok this'
       ∧ at_const this' i = Ok v
       ∧ (∀ j, j ≠ i → at_const this' j = at_const this j)
       ∧ length (_w this') = length (_w this)
       ∧ getSize this' = getSize this
       ∧ ∀ parameters, getFeatureVector NUM_TILINGS this' parameters
                       = getFeatureVector NUM_TILINGS this parameters).
Proof.
  unfold at_store. split.
  - intros Hi. by rewrite lookup_ge_None_2.
  - intros Hi. destruct (lookup_lt_is_Some_2 (_w this) i Hi) as [w ->].
    eexists. split; [done|]. unfold at_const, at_. cbn [_w].
    split; [by rewrite list_lookup_insert_eq|].
    split; [intros j Hj; by rewrite list_lookup_insert_ne|].
    split; [by rewrite length_insert|]. done.
Qed.

Lemma weightOf_in_range this (f : Z) :
  (0 ≤ f < Z.of_nat (length (_w this)))%Z →
  weightOf this f = Ok (default 0 (_w this !! Z.to_nat f)).
Proof.
  intros Hf. unfold weightOf, subscript. rewrite decide_False by lia.
  destruct (lookup_lt_is_Some_2 (_w this) (Z.to_nat f)) as [w ->]; [lia|done].
Qed.

Lemma weightOf_out_of_range this (f : Z) :
  ¬ (0 ≤ f < Z.of_nat (length (_w this)))%Z → weightOf this f = Undefined.
Proof.
  intros Hf. unfold weightOf, subscript. case_decide; [done|].
  rewrite lookup_ge_None_2; [done|lia].
Qed.

Lemma foldM_weights this fv : ∀ sum,
  foldM (λ sum f, w ← weightOf this f; Ok (sum + w)) sum fv
  = if decide (Forall (λ f, 0 ≤ f < Z.of_nat (length (_w this)))%Z fv)
    then Ok (sum + weightSum this fv) else Undefined.
Proof.
  induction fv as [|f fv IH]; intros sum; cbn [foldM weightSum foldr].
  - rewrite decide_True by constructor. f_equal. ring.
  - destruct (decide (0 ≤ f < Z.of_nat (length (_w this)))%Z) as [Hf|Hf].
    + rewrite weightOf_in_range by done. cbn [mbind outcome_bind]. rewrite IH.
      destruct (decide (Forall _ fv)) as [Hfv|Hfv].
      * rewrite decide_True by (by constructor). f_equal.
        fold (weightSum this fv). ring.
      * rewrite decide_False; [done|]. by intros [_ ?]%Forall_cons.
    + rewrite weightOf_out_of_range by done. cbn [mbind outcome_bind].
      rewrite decide_False; [done|]. by intros [? _]%Forall_cons.
Qed.

Lemma getValueFromFeatureVector_sum' this fv :
  Forall (λ f, 0 ≤ f < Z.of_nat (length (_w this)))%Z fv →
  getValueFromFeatureVector this fv = Ok (weightSum this fv).
Proof.
  intros Hfv. unfold getValueFromFeatureVector.
  rewrite foldM_weights, decide_True by done. f_equal. ring.
Qed.


Lemma weightSum_new NUM_TILINGS dims sizeHint draw fv :
  weightSum (new2 NUM_TILINGS dims sizeHint draw) fv = 0.
Proof.
  induction fv as [|f fv IH]; [done|].
  cbn [weightSum foldr]. fold (weightSum (new2 NUM_TILINGS dims sizeHint draw) fv).
  rewrite IH. cbn [new2 _w].
  destruct (replicate (N.to_nat sizeHint) 0 !! Z.to_nat f) as [w|] eqn:E.
  - apply lookup_replicate in E as [-> _]. cbn. ring.
  - cbn. ring.
Qed.

(** X17.  On a coder as constructed, when [getFeatureVector] returns for a
    point, [getValueFromParameters] of that point returns [0] if every feature
    index is below [getSize()] (the weights start at zero); an index equal to
    [getSize()], which the [assert] admits, makes it read outside the weight
    vector, with no defined result. *)
Theorem getValueFromParameters_new NUM_TILINGS dims sizeHint draw parameters fv :
  getFeatureVector NUM_TILINGS (new2 NUM_TILINGS dims sizeHint draw) parameters
  = Ok fv →
  getValueFromParameters NUM_TILINGS (new2 NUM_TILINGS dims sizeHint draw) parameters
  = if decide (Forall (λ f, f < Z.of_N (getSize (new2 NUM_TILINGS dims sizeHint draw)))%Z
                 fv)
    then Ok 0 else Undefined.
Proof.
  intros Hfv. unfold getValueFromParameters, getValueFromFeatureVector.
  rewrite Hfv. cbn [mbind outcome_bind].
  rewrite foldM_weights, weightSum_new.
  apply featureVector_returned in Hfv as [_ Hfv].
  assert (Forall (λ f, 0 ≤ f < Z.of_nat (length (_w (new2 NUM_TILINGS dims sizeHint draw))))%Z fv
          ↔ Forall (λ f, f < Z.of_N (getSize (new2 NUM_TILINGS dims sizeHint draw)))%Z fv)
    as Hiff.
  { cbn [new2 _w getSize _sizeCache]. rewrite length_replicate, N_nat_Z.
    rewrite !Forall_lookup. split; intros Hall i idx Hidx.
    - by apply (Hall i idx Hidx).
    - split; [|by apply (Hall i idx)].
      pose proof (Hfv i idx Hidx) as [Hlow _].
      pose proof (volume_pos (_dimensionalInfos (new2 NUM_TILINGS dims sizeHint draw))).
      nia. }
  destruct (decide (Forall (λ f, 0 ≤ f < _)%Z fv)) as [Hin|Hout].
  - rewrite decide_True by (by apply Hiff). f_equal; ring.
  - rewrite decide_False; [done|]. intros ?. by apply Hout, Hiff.
Qed.

(** *** Grid values *)

(** X18.  On a coder as constructed, [paramToGridValue] throws
    [std::out_of_range] when the tiling index is not below [NUM_TILINGS] or
    the dimension index is not below [D]. *)
Theorem paramToGridValue_index_bounds NUM_TILINGS dims sizeHint draw
    (param : Qc) (i j : nat) :
  ((NUM_TILINGS ≤ i)%nat ∨ (length dims ≤ j)%nat) →
  paramToGridValue (new2 NUM_TILINGS dims sizeHint draw) param i j
  = Throw out_of_range.
Proof.
  intros Hij. unfold paramToGridValue, new2, at_. cbn [_randomOffsets _dimensionalInfos].
  rewrite list_lookup_fmap.
  destruct (decide (i < NUM_TILINGS)%nat) as [Hi|Hi].
  - destruct Hij as [?|Hj]; [lia|].
    rewrite lookup_seq_lt by done. cbn [fmap option_fmap option_map mbind outcome_bind].
    rewrite list_lookup_imap, lookup_ge_None_2 by done. reflexivity.
  - rewrite lookup_seq_ge by lia. reflexivity.
Qed.

Lemma abs_nonneg (x : Qc) : 0 ≤ DimensionInfo.abs x.
Proof. unfold DimensionInfo.abs. case_decide; qc_nra. Qed.

Lemma quotient_to_size_t_Ok (num den : Qc) (g : N) :
  quotient_to_size_t num den = Ok g →
  den ≠ 0 ∧ g = Z.to_N (Qfloor (num / den)%Qc).
Proof.
  unfold quotient_to_size_t. repeat case_decide; [done..|].
  by intros [= <-].
Qed.

Lemma Qcdiv_le_mono (a b den : Qc) : 0 < den → a ≤ b → a / den ≤ b / den.
Proof.
  intros Hden Hab. unfold Qcdiv. apply Qcmult_le_mono_nonneg_r; [|done].
  apply Qclt_le_weak. by apply Qcinv_pos.
Qed.

(** X19.  The grid value is monotone in the coordinate: for one tiling and
    one dimension of any coder, a larger parameter never gets a smaller grid
    value. *)
Theorem paramToGridValue_monotone this (x y : Qc) (i j : nat) (g g' : N) :
  x ≤ y →
  paramToGridValue this x i j = Ok g →
  paramToGridValue this y i j = Ok g' →
  (g ≤ g')%N.
Proof.
  intros Hxy. unfold paramToGridValue, at_.
  destruct (_randomOffsets this !! i) as [row|]; [|done].
  cbn [mbind outcome_bind].
  destruct (row !! j) as [randomOffset|]; [|done].
  cbn [mbind outcome_bind].
  destruct (_dimensionalInfos this !! j) as [di|]; [|done].
  cbn [mbind outcome_bind]. cbv zeta.
  intros [Hden ->]%quotient_to_size_t_Ok [_ ->]%quotient_to_size_t_Ok.
  assert (0 < DimensionInfo.GetRangeDifference di) as Hpos.
  { destruct (Qcle_lt_or_eq _ _ (abs_nonneg
      ((DimensionInfo._range di).1 - (DimensionInfo._range di).2))) as [?|Heq];
      [done|]. by destruct Hden. }
  match goal with
  | |- (Z.to_N (Qfloor ?a) ≤ Z.to_N (Qfloor ?b))%N =>
      assert (Qfloor a ≤ Qfloor b)%Z as Hfloor; [|lia]
  end.
  apply Qfloor_resp_le.
  apply (Qcdiv_le_mono _ _ _ Hpos).
  apply Qcmult_le_mono_nonneg_r.
  - unfold Qcle. cbn [Qcanon.this Qc_of_Z].
    change (Qcanon.this 0) with (inject_Z 0). rewrite <-Zle_Qle. lia.
  - qc_nra.
Qed.


End Proofs.

(** ** DimensionInfo<rl::FLOAT> *)

Section Dimension.
Import DimensionInfo.

(** X21.  [GetRangeDifference()] is never negative and does not depend on
    which of the two bounds was set as the upper one. *)
Theorem rangeDifference_symmetric (this : DimensionInfo.t) (lowerBound upperBound : Qc) :
  0 ≤ GetRangeDifference this
  ∧ GetRangeDifference (setUpperBound upperBound (setLowerBound lowerBound this))
    = GetRangeDifference (setUpperBound lowerBound (setLowerBound upperBound this)).
Proof.
  split; [apply abs_nonneg|].
  unfold GetRangeDifference, setUpperBound, setLowerBound, abs. cbn [_range fst snd].
  repeat case_decide; try ring;
    first [exfalso; qc_nra | apply Qcle_antisym; qc_nra].
Qed.

End Dimension.

(** *** The statements at a concrete coder: one dimension [[0, 1]] with ten
    cells, two tilings *)


Lemma getValueFromParameters_new_witness :
  getFeatureVector 2 (new2 2 [DimensionInfo.mk (0, 1)%Qc 10 1%Qc] 22 (λ _ _, Q2Qc (1 # 2)))
    [Q2Qc (1 # 2)] = Ok [5; 16]%Z
  ∧ getValueFromParameters 2
      (new2 2 [DimensionInfo.mk (0, 1)%Qc 10 1%Qc] 22 (λ _ _, Q2Qc (1 # 2)))
      [Q2Qc (1 # 2)]
    = if decide (Forall (λ f, f < Z.of_N (getSize
                   (new2 2 [DimensionInfo.mk (0, 1)%Qc 10 1%Qc] 22
                      (λ _ _, Q2Qc (1 # 2)))))%Z [5; 16]%Z)
      then Ok 0 else Undefined.
Proof.
  assert (getFeatureVector 2
            (new2 2 [DimensionInfo.mk (0, 1)%Qc 10 1%Qc] 22 (λ _ _, Q2Qc (1 # 2)))
            [Q2Qc (1 # 2)] = Ok [5; 16]%Z) as Hfv by (vm_compute; reflexivity).
  split; [exact Hfv|].
  exact (getValueFromParameters_new 2 _ _ _ _ _ Hfv).
Defined.

Lemma at_store_at_const_witness :
  (22 ≤ 30)%nat ∧ (3 < 22)%nat
  ∧ length (_w (new 2 [DimensionInfo.mk (0, 1)%Qc 10 1%Qc] (λ _ _, Q2Qc (1 # 2)))) = 22%nat
  ∧ at_store (new 2 [DimensionInfo.mk (0, 1)%Qc 10 1%Qc] (λ _ _, Q2Qc (1 # 2))) 30 1
    = Throw out_of_range
  ∧ ∃ this', at_store (new 2 [DimensionInfo.mk (0, 1)%Qc 10 1%Qc] (λ _ _, Q2Qc (1 # 2))) 3 1
             = Ok this'
             ∧ at_const this' 3 = Ok 1.
Proof.
  assert (length (_w (new 2 [DimensionInfo.mk (0, 1)%Qc 10 1%Qc] (λ _ _, Q2Qc (1 # 2))))
          = 22%nat) as Hlen by reflexivity.
  assert (22 ≤ 30)%nat as Hge by lia.
  assert (3 < 22)%nat as Hlt by lia.
  destruct (at_store_at_const 2
              (new 2 [DimensionInfo.mk (0, 1)%Qc 10 1%Qc] (λ _ _, Q2Qc (1 # 2))) 30 1)
    as [Hthrow _].
  destruct (at_store_at_const 2
              (new 2 [DimensionInfo.mk (0, 1)%Qc 10 1%Qc] (λ _ _, Q2Qc (1 # 2))) 3 1)
    as [_ Hstore].
  split; [exact Hge|]. split; [exact Hlt|]. split; [exact Hlen|].
  split; [apply Hthrow; rewrite Hlen; exact Hge|].
  destruct Hstore as (this' & Hs & Hread & _); [rewrite Hlen; exact Hlt|].
  exists this'. split; [exact Hs|exact Hread].
Defined.

Lemma paramToGridValue_index_bounds_witness :
  ((2 ≤ 2)%nat ∨ (length [DimensionInfo.mk (0, 1)%Qc 10 1%Qc] ≤ 0)%nat)
  ∧ paramToGridValue (new2 2 [DimensionInfo.mk (0, 1)%Qc 10 1%Qc] 22 (λ _ _, Q2Qc (1 # 2)))
      (Q2Qc (1 # 2)) 2 0
    = Throw out_of_range.
Proof.
  assert ((2 ≤ 2)%nat ∨ (length [DimensionInfo.mk (0, 1)%Qc 10 1%Qc] ≤ 0)%nat) as Hij
    by (left; lia).
  split; [exact Hij|].
  exact (paramToGridValue_index_bounds 2 [DimensionInfo.mk (0, 1)%Qc 10 1%Qc] 22
           (λ _ _, Q2Qc (1 # 2)) (Q2Qc (1 # 2)) 2 0 Hij).
Defined.

Lemma paramToGridValue_monotone_witness :
  Q2Qc (1 # 4) ≤ Q2Qc (3 # 4)
  ∧ paramToGridValue (new 2 [DimensionInfo.mk (0, 1)%Qc 10 1%Qc] (λ _ _, Q2Qc (1 # 2)))
      (Q2Qc (1 # 4)) 0 0 = Ok 3%N
  ∧ paramToGridValue (new 2 [DimensionInfo.mk (0, 1)%Qc 10 1%Qc] (λ _ _, Q2Qc (1 # 2)))
      (Q2Qc (3 # 4)) 0 0 = Ok 8%N
  ∧ (3 ≤ 8)%N.
Proof.
  assert (Q2Qc (1 # 4) ≤ Q2Qc (3 # 4)) as Hxy by (by vm_compute).
  assert (paramToGridValue (new 2 [DimensionInfo.mk (0, 1)%Qc 10 1%Qc] (λ _ _, Q2Qc (1 # 2)))
            (Q2Qc (1 # 4)) 0 0 = Ok 3%N) as Hx by (vm_compute; reflexivity).
  assert (paramToGridValue (new 2 [DimensionInfo.mk (0, 1)%Qc 10 1%Qc] (λ _ _, Q2Qc (1 # 2)))
            (Q2Qc (3 # 4)) 0 0 = Ok 8%N) as Hy by (vm_compute; reflexivity).
  split; [exact Hxy|]. split; [exact Hx|]. split; [exact Hy|].
  exact (paramToGridValue_monotone _ _ _ 0%nat 0%nat 3%N 8%N Hxy Hx Hy).
Defined.


End TileCodeMore.
